(** * goecs: a sparse-set entity-component store, embedded in Rocq

    Shallow embedding of [goecs.go].  Go's [int] and [uint64] are 64-bit
    machine integers: they are modelled as [Z] with the wrap-around of every
    conversion and arithmetic operation written out.  Slices are lists; an
    index expression or a [make] that the Go runtime rejects is a [Panic].
    Components are stored behind pointers ([components []*T]): a pointer is
    an index into an append-only heap of component values, so that the
    identity of a backing slot and in-place mutation can be stated. *)

From stdpp Require Import base numbers list option countable gmap.

Local Open Scope Z_scope.

(** ** Machine integers *)

Definition uint64_mod : Z := 2 ^ 64.

(** Two's-complement reduction of a mathematical integer to Go's [int]. *)
Definition wrap_int (z : Z) : Z := (z + 2 ^ 63) `mod` uint64_mod - 2 ^ 63.

(** Reduction to [uint64]. *)
Definition wrap_uint64 (z : Z) : Z := z `mod` uint64_mod.

(** [type Goent uint64]: an entity handle is a [Z] in the [uint64] range. *)
Abbreviation Goent := Z.

Definition is_Goent (e : Goent) : Prop := 0 ≤ e < uint64_mod.

(** The conversion [int(entity)]. *)
Definition int_of_Goent (e : Goent) : Z := wrap_int e.

(** ** Panics *)

Inductive result (A : Type) : Type :=
| Ok (a : A)
| Panic.
Arguments Ok {A} a.
Arguments Panic {A}.

#[global] Instance result_ret : MRet result := λ A a, Ok a.
#[global] Instance result_bind : MBind result :=
  λ A B f m, match m with Ok a => f a | Panic => Panic end.

(** ** Slices *)

(** [len(s)] as a Go [int]. *)
Definition len {A} (s : list A) : Z := Z.of_nat (length s).

(** [s[i]] read: out of range is a run-time panic. *)
Definition index {A} (s : list A) (i : Z) : result A :=
  if bool_decide (0 ≤ i)
  then match s !! Z.to_nat i with Some x => Ok x | None => Panic end
  else Panic.

(** [s[i] = x]. *)
Definition set_index {A} (s : list A) (i : Z) (x : A) : result (list A) :=
  if bool_decide (0 ≤ i < len s) then Ok (<[Z.to_nat i := x]> s) else Panic.

(** [s[:n]].  The capacity of [s] is taken to be its length; the only slice
    expression of the program is reached after [s[n]] was read. *)
Definition slice_to {A} (s : list A) (n : Z) : result (list A) :=
  if bool_decide (0 ≤ n ≤ len s) then Ok (take (Z.to_nat n) s) else Panic.

(** [make([]int, n)]: a negative length panics; memory is not bounded. *)
Definition make_ints (n : Z) : result (list Z) :=
  if bool_decide (n < 0) then Panic else Ok (replicate (Z.to_nat n) 0).

(** [for i := range s { s[i] = v }]. *)
Definition fill {A} (s : list A) (v : A) : list A := replicate (length s) v.

(** The builtin [copy(dst, src)]: the first [min(len dst, len src)] elements. *)
Definition copy {A} (dst src : list A) : list A :=
  take (length dst) src ++ drop (length src) dst.

(** ** Entity IDs *)

(** [CreateEntity], with the global counter [nextEntity] passed explicitly:
    returns the new id and the incremented counter. *)
Definition CreateEntity (nextEntity : Goent) : Goent * Goent :=
  (nextEntity, wrap_uint64 (nextEntity + 1)).

(** [n] calls of [CreateEntity]. *)
Fixpoint CreateEntities (n : nat) (nextEntity : Goent) : list Goent * Goent :=
  match n with
  | O => ([], nextEntity)
  | S n' =>
      let '(id, next) := CreateEntity nextEntity in
      let '(ids, final) := CreateEntities n' next in
      (id :: ids, final)
  end.

(** ** ECS core *)

Definition invalidIndex : Z := -1.
Definition alignment : Z := 256.

(** Go's [%] and [/] truncate toward zero ([Z.rem], [Z.quot]); [+] and [*]
    wrap. *)
Definition nextAlignedCapacity (n : Z) : Z :=
  if bool_decide (Z.rem n alignment = 0) then n
  else wrap_int (wrap_int (Z.quot n alignment + 1) * alignment).

(** A pointer [*T]: the index of a cell of the heap. *)
Abbreviation loc := nat.

(** [&comp]: a fresh cell holding [comp]. *)
Definition alloc {T} (h : list T) (comp : T) : loc * list T :=
  (length h, h ++ [comp]).

(** [*p = comp]. *)
Definition store {T} (h : list T) (p : loc) (comp : T) : list T :=
  <[p := comp]> h.

Record SparseSet : Type := mkSparseSet {
  dense : list Goent;
  components : list loc;
  sparse : list Z
}.

Definition NewSparseSet : SparseSet :=
  {| dense := [];
     components := [];
     sparse := fill (replicate (Z.to_nat alignment) 0) invalidIndex |}.

Definition Emplace {T} (ss : SparseSet) (h : list T) (entity : Goent) (comp : T)
  : result (SparseSet * list T) :=
  let i := int_of_Goent entity in
  sp ← (if bool_decide (len (sparse ss) ≤ i) then
          let newSize := nextAlignedCapacity (wrap_int (i + 1)) in
          newSparse ← make_ints newSize;
          Ok (copy (fill newSparse invalidIndex) (sparse ss))
        else Ok (sparse ss));
  cur ← index sp i;
  if bool_decide (cur ≠ invalidIndex) then
    p ← index (components ss) cur;
    Ok ({| dense := dense ss; components := components ss; sparse := sp |},
        store h p comp)
  else
    let idx := len (dense ss) in
    let '(p, h') := alloc h comp in
    sp' ← set_index sp i idx;
    Ok ({| dense := dense ss ++ [entity];
           components := components ss ++ [p];
           sparse := sp' |}, h').

(** [Get] returns a pointer and a flag: [Some p] is [(p, true)], [None] is
    [(nil, false)]. *)
Definition Get (ss : SparseSet) (entity : Goent) : result (option loc) :=
  let i := int_of_Goent entity in
  if bool_decide (len (sparse ss) ≤ i) then Ok None
  else
    cur ← index (sparse ss) i;
    if bool_decide (cur = invalidIndex) then Ok None
    else p ← index (components ss) cur; Ok (Some p).

Definition Remove (ss : SparseSet) (entity : Goent) : result SparseSet :=
  let i := int_of_Goent entity in
  if bool_decide (len (sparse ss) ≤ i) then Ok ss
  else
    cur ← index (sparse ss) i;
    if bool_decide (cur = invalidIndex) then Ok ss
    else
      let idx := cur in
      let lastIndex := wrap_int (len (dense ss) - 1) in
      lastEntity ← index (dense ss) lastIndex;
      dense1 ← set_index (dense ss) idx lastEntity;
      lastComp ← index (components ss) lastIndex;
      comps1 ← set_index (components ss) idx lastComp;
      sparse1 ← set_index (sparse ss) (int_of_Goent lastEntity) idx;
      dense2 ← slice_to dense1 lastIndex;
      comps2 ← slice_to comps1 lastIndex;
      sparse2 ← set_index sparse1 i invalidIndex;
      Ok {| dense := dense2; components := comps2; sparse := sparse2 |}.

(** The [SparseSetInterface] methods. *)
Definition SparseSet_GetComponent (ss : SparseSet) (entity : Goent)
  : result (option loc) := Get ss entity.

Definition GetDense (ss : SparseSet) : list Goent := dense ss.

(** Dereference of the pointer returned by [Get]: the component value an
    entity holds, if any. *)
Definition read {T} (ss : SparseSet) (h : list T) (entity : Goent)
  : result (option T) :=
  r ← Get ss entity;
  match r with
  | None => Ok None
  | Some p => match h !! p with Some v => Ok (Some v) | None => Panic end
  end.

(** ** Run-time types *)

(** The [reflect.Type] values the program handles: the handle type [Goent],
    named (non-interface) component types, and pointer types. *)
Inductive gotype : Type :=
| TGoent
| TNamed (n : nat)
| TPtr (t : gotype).

#[global] Instance gotype_eq_dec : EqDecision gotype.
Proof. solve_decision. Defined.

Fixpoint gotype_code (t : gotype) : nat * option nat :=
  match t with
  | TGoent => (O, None)
  | TNamed n => (O, Some n)
  | TPtr t' => let '(d, b) := gotype_code t' in (S d, b)
  end.

Fixpoint gotype_build (d : nat) (b : option nat) : gotype :=
  match d with
  | O => match b with None => TGoent | Some n => TNamed n end
  | S d' => TPtr (gotype_build d' b)
  end.

#[global] Instance gotype_countable : Countable gotype.
Proof.
  refine (inj_countable' gotype_code (λ c, gotype_build c.1 c.2) _).
  intros t. induction t as [| n | t IH]; simpl; try reflexivity.
  destruct (gotype_code t) as [d b]. simpl in *. by rewrite IH.
Defined.

(** [t.Kind() == reflect.Ptr]. *)
Definition is_ptr (t : gotype) : bool :=
  match t with TPtr _ => true | _ => false end.

(** [t.Elem()] of a pointer type. *)
Definition Elem (t : gotype) : gotype :=
  match t with TPtr t' => t' | _ => t end.

(** ** Registry *)

(** [storages map[reflect.Type]SparseSetInterface].  The set stored under
    key [k] is always a [SparseSet[T]] with [typeKeyFor[T]() = k], so the
    type assertions of the program succeed; component values of every type
    live in one heap of a universal payload type. *)
Abbreviation Registry := (gmap gotype SparseSet).

Definition NewRegistry : Registry := ∅.

(** [RegisterComponent[T](r)], with [key = typeKeyFor[T]()]: returns the
    updated registry and the new set. *)
Definition RegisterComponent (r : Registry) (key : gotype)
  : Registry * SparseSet :=
  let set := NewSparseSet in
  (<[key := set]> r, set).

Definition EmplaceComponent {T} (r : Registry) (h : list T) (key : gotype)
    (entity : Goent) (comp : T) : result (Registry * list T) :=
  let storage := match r !! key with
                 | Some s => s
                 | None => NewSparseSet
                 end in
  '(storage', h') ← Emplace storage h entity comp;
  Ok (<[key := storage']> r, h').

Definition GetComponent (r : Registry) (key : gotype) (entity : Goent)
  : result (option loc) :=
  match r !! key with
  | None => Ok None
  | Some storage => Get storage entity
  end.

Definition RemoveComponent (r : Registry) (key : gotype) (entity : Goent)
  : result Registry :=
  match r !! key with
  | Some storage =>
      storage' ← Remove storage entity;
      Ok (<[key := storage']> r)
  | None => Ok r
  end.

(** ** Iteration

    A visitor receives the entity and the component pointers and acts on a
    state [W] of the caller (the heap of component values together with
    whatever the closure captured).  Visitors do not emplace or remove
    during the iteration and do not panic. *)

(** [for _, e := range dense { f(e) }], where [f] may panic. *)
Fixpoint iterateDense {W} (dense : list Goent) (f : Goent → W → result W)
    (w : W) : result W :=
  match dense with
  | [] => Ok w
  | e :: rest => w' ← f e w; iterateDense rest f w'
  end.

Definition getStorage (r : Registry) (key : gotype) : option SparseSet :=
  r !! key.

Definition Iterate2 {W} (r : Registry) (k1 k2 : gotype)
    (f : Goent → loc → loc → W → W) (w : W) : result W :=
  match getStorage r k1, getStorage r k2 with
  | Some s1, Some s2 =>
      let baseDense := dense s1 in
      let baseDense :=
        if bool_decide (len (dense s2) < len baseDense) then dense s2
        else baseDense in
      iterateDense baseDense (λ entity w,
        c1 ← Get s1 entity;
        c2 ← Get s2 entity;
        match c1, c2 with
        | Some p1, Some p2 => Ok (f entity p1 p2 w)
        | _, _ => Ok w
        end) w
  | _, _ => Ok w
  end.

Definition Iterate3 {W} (r : Registry) (k1 k2 k3 : gotype)
    (f : Goent → loc → loc → loc → W → W) (w : W) : result W :=
  match getStorage r k1, getStorage r k2, getStorage r k3 with
  | Some s1, Some s2, Some s3 =>
      let baseDense := dense s1 in
      let baseDense :=
        if bool_decide (len (dense s2) < len baseDense) then dense s2
        else baseDense in
      let baseDense :=
        if bool_decide (len (dense s3) < len baseDense) then dense s3
        else baseDense in
      iterateDense baseDense (λ entity w,
        c1 ← Get s1 entity;
        c2 ← Get s2 entity;
        c3 ← Get s3 entity;
        match c1, c2, c3 with
        | Some p1, Some p2, Some p3 => Ok (f entity p1 p2 p3 w)
        | _, _, _ => Ok w
        end) w
  | _, _, _ => Ok w
  end.

Definition Iterate4 {W} (r : Registry) (k1 k2 k3 k4 : gotype)
    (f : Goent → loc → loc → loc → loc → W → W) (w : W) : result W :=
  match getStorage r k1, getStorage r k2, getStorage r k3, getStorage r k4 with
  | Some s1, Some s2, Some s3, Some s4 =>
      let baseDense := dense s1 in
      let baseDense :=
        if bool_decide (len (dense s2) < len baseDense) then dense s2
        else baseDense in
      let baseDense :=
        if bool_decide (len (dense s3) < len baseDense) then dense s3
        else baseDense in
      let baseDense :=
        if bool_decide (len (dense s4) < len baseDense) then dense s4
        else baseDense in
      iterateDense baseDense (λ entity w,
        c1 ← Get s1 entity;
        c2 ← Get s2 entity;
        c3 ← Get s3 entity;
        c4 ← Get s4 entity;
        match c1, c2, c3, c4 with
        | Some p1, Some p2, Some p3, Some p4 => Ok (f entity p1 p2 p3 p4 w)
        | _, _, _, _ => Ok w
        end) w
  | _, _, _, _ => Ok w
  end.

(** *** Reflective iteration *)

(** The argument [f interface{}] of [IterateReflective]: a function value
    with its parameter types [In(0), In(1), ...] and its body, or a value
    of any other kind. *)
Inductive goval (W : Type) : Type :=
| VFunc (ins : list gotype) (body : Goent → list loc → W → W)
| VOther.
Arguments VFunc {W} ins body.
Arguments VOther {W}.

(** Lines 193-205: the storage of every component parameter, or [None] as
    soon as one is missing.  Each storage is paired with the element type
    it was found under, the type its pointers point to. *)
Fixpoint resolve_storages (r : Registry) (params : list gotype)
  : option (list (gotype * SparseSet)) :=
  match params with
  | [] => Some []
  | paramType :: rest =>
      let paramType := if is_ptr paramType then Elem paramType else paramType in
      match r !! paramType with
      | None => None
      | Some storage =>
          match resolve_storages r rest with
          | None => None
          | Some storages => Some ((paramType, storage) :: storages)
          end
      end
  end.

(** Lines 208-216: the loop [for i := 1; i < compCount; i++] over the
    storages after the first. *)
Fixpoint pick_base (rest : list (gotype * SparseSet)) (i : nat)
    (baseIndex : nat) (minLen : Z) : nat :=
  match rest with
  | [] => baseIndex
  | (_, s) :: rest' =>
      let l := len (GetDense s) in
      if bool_decide (l < minLen) then pick_base rest' (S i) i l
      else pick_base rest' (S i) baseIndex minLen
  end.

(** Lines 227-235: the arguments of one call with their dynamic types, or
    [None] when a lookup fails ([valid = false; break]). *)
Fixpoint gather_args (storages : list (gotype * SparseSet)) (entity : Goent)
  : result (option (list (gotype * loc))) :=
  match storages with
  | [] => Ok (Some [])
  | (t, storage) :: rest =>
      comp ← SparseSet_GetComponent storage entity;
      match comp with
      | None => Ok None
      | Some p =>
          args ← gather_args rest entity;
          Ok (option_map (cons (TPtr t, p)) args)
      end
  end.

(** [fVal.Call(args)]: [reflect] panics unless every argument has the type
    of its parameter (the first argument is the [Goent]). *)
Definition reflect_Call {W} (ins : list gotype)
    (body : Goent → list loc → W → W) (entity : Goent)
    (args : list (gotype * loc)) (w : W) : result W :=
  if bool_decide (ins = TGoent :: args.*1) then Ok (body entity args.*2 w)
  else Panic.

Definition IterateReflective {W} (r : Registry) (f : goval W) (w : W)
  : result W :=
  match f with
  | VOther => Panic
  | VFunc ins body =>
      if bool_decide (len ins < 1) || negb (bool_decide (ins !! O = Some TGoent))
      then Panic
      else
        let compCount := len ins - 1 in
        if bool_decide (compCount = 0) then Panic
        else
          match resolve_storages r (drop 1 ins) with
          | None => Ok w
          | Some storages =>
              match storages with
              | [] => Panic
              | (_, s0) :: rest =>
                  let baseIndex := pick_base rest 1 0 (len (GetDense s0)) in
                  match storages !! baseIndex with
                  | None => Panic
                  | Some (_, base) =>
                      iterateDense (GetDense base) (λ entity w,
                        args ← gather_args storages entity;
                        match args with
                        | None => Ok w
                        | Some args => reflect_Call ins body entity args w
                        end) w
                  end
              end
          end
  end.

(** ** The structural invariant of a sparse set *)

(** [dense] and [components] are index-aligned; [sparse] and [dense] are
    inverse to each other; every component has a backing slot of its own;
    the length of a slice is an [int]. *)
Record wf (ss : SparseSet) : Prop := mk_wf {
  wf_aligned : length (dense ss) = length (components ss);
  wf_dense : ∀ (i : nat) (e : Goent), dense ss !! i = Some e →
    0 ≤ e < 2 ^ 63 ∧ sparse ss !! Z.to_nat e = Some (Z.of_nat i);
  wf_sparse : ∀ (j : nat) (v : Z), sparse ss !! j = Some v →
    v = invalidIndex ∨ (0 ≤ v ∧ dense ss !! Z.to_nat v = Some (Z.of_nat j));
  wf_slots : NoDup (components ss);
  wf_cap : len (sparse ss) < 2 ^ 63
}.

(** Every slot of the set is an allocated cell of the heap. *)
Definition allocated {T} (ss : SparseSet) (h : list T) : Prop :=
  ∀ p : loc, p ∈ components ss → (p < length h)%nat.

Definition Inv {T} (ss : SparseSet) (h : list T) : Prop :=
  wf ss ∧ allocated ss h.

(** Entity [e] holds a component in [ss]. *)
Definition holds (ss : SparseSet) (e : Goent) : Prop := e ∈ dense ss.

#[global] Instance holds_dec ss e : Decision (holds ss e).
Proof. unfold holds. apply _. Defined.

(** Executable form of the invariant. *)
Definition dense_ok (sp : list Z) (ie : nat * Goent) : Prop :=
  (0 ≤ ie.2 < 2 ^ 63) ∧ sp !! Z.to_nat ie.2 = Some (Z.of_nat ie.1).

Definition sparse_ok (d : list Goent) (jv : nat * Z) : Prop :=
  jv.2 = invalidIndex ∨ (0 ≤ jv.2 ∧ d !! Z.to_nat jv.2 = Some (Z.of_nat jv.1)).

#[global] Instance dense_ok_dec sp ie : Decision (dense_ok sp ie).
Proof. unfold dense_ok. apply _. Defined.

#[global] Instance sparse_ok_dec d jv : Decision (sparse_ok d jv).
Proof. unfold sparse_ok. apply _. Defined.

Definition wf_check (ss : SparseSet) : bool :=
  bool_decide (length (dense ss) = length (components ss))
  && bool_decide (Forall (dense_ok (sparse ss)) (imap pair (dense ss)))
  && bool_decide (Forall (sparse_ok (dense ss)) (imap pair (sparse ss)))
  && bool_decide (NoDup (components ss))
  && bool_decide (len (sparse ss) < 2 ^ 63).

Definition Inv_check {T} (ss : SparseSet) (h : list T) : bool :=
  wf_check ss && bool_decide (Forall (λ p : loc, (p < length h)%nat) (components ss)).

(** The registry invariant: every stored set is well formed. *)
Definition reg_wf (r : Registry) : Prop :=
  ∀ (k : gotype) (ss : SparseSet), r !! k = Some ss → wf ss.

Definition reg_wf_check (r : Registry) : bool :=
  bool_decide (map_Forall (λ (_ : gotype) ss, wf_check ss = true) r).

(** The registry invariant with the heap: every set is well formed and
    its slots are allocated. *)
Definition reg_Inv {T} (r : Registry) (h : list T) : Prop :=
  ∀ (k : gotype) (ss : SparseSet), r !! k = Some ss → Inv ss h.

(** Entity [e] holds a component of type [k] in the registry. *)
Definition reg_holds (r : Registry) (k : gotype) (e : Goent) : Prop :=
  ∃ ss, r !! k = Some ss ∧ holds ss e.

(** ** Operation sequences on one entity *)

Inductive op (T : Type) : Type :=
| OpEmplace (comp : T)
| OpRemove.
Arguments OpEmplace {T} comp.
Arguments OpRemove {T}.

Definition run_op {T} (entity : Goent) (st : SparseSet * list T) (o : op T)
  : result (SparseSet * list T) :=
  match o with
  | OpEmplace comp => Emplace st.1 st.2 entity comp
  | OpRemove => ss' ← Remove st.1 entity; Ok (ss', st.2)
  end.

Fixpoint run_ops {T} (entity : Goent) (st : SparseSet * list T)
    (ops : list (op T)) : result (SparseSet * list T) :=
  match ops with
  | [] => Ok st
  | o :: rest => st' ← run_op entity st o; run_ops entity st' rest
  end.

(** What the most recent operation of a sequence leaves on the entity. *)
Definition last_effect {T} (ops : list (op T)) : option T :=
  match last ops with
  | Some (OpEmplace comp) => Some comp
  | _ => None
  end.

(** Emplacing [v e] on every entity [e] of a list, in order. *)
Fixpoint emplace_all {T} (ss : SparseSet) (h : list T) (es : list Goent)
    (v : Goent → T) : result (SparseSet * list T) :=
  match es with
  | [] => Ok (ss, h)
  | e :: rest => '(ss', h') ← Emplace ss h e (v e); emplace_all ss' h' rest v
  end.

Fixpoint emplace_components {T} (r : Registry) (h : list T) (key : gotype)
    (es : list Goent) (v : Goent → T) : result (Registry * list T) :=
  match es with
  | [] => Ok (r, h)
  | e :: rest =>
      '(r', h') ← EmplaceComponent r h key e (v e);
      emplace_components r' h' key rest v
  end.

(** The sparse index after the growth step of [Emplace] for a handle [e]
    in the supported range. *)
Definition grown (sp : list Z) (e : Goent) : list Z :=
  if bool_decide (len sp ≤ e)
  then sp ++ replicate (Z.to_nat (nextAlignedCapacity (e + 1)) - length sp)%nat
                       invalidIndex
  else sp.

(** The set after the swap-with-last removal of the entity [e] found at
    position [i], where [lastEntity] and [lastComp] are the last entries. *)
Definition swap_removed (ss : SparseSet) (e : Goent) (i : nat)
    (lastEntity : Goent) (lastComp : loc) : SparseSet :=
  let n := length (dense ss) in
  {| dense := take (n - 1) (<[i := lastEntity]> (dense ss));
     components := take (n - 1) (<[i := lastComp]> (components ss));
     sparse := <[Z.to_nat e := invalidIndex]>
                 (<[Z.to_nat lastEntity := Z.of_nat i]> (sparse ss)) |}.

(** The component value left on an entity by a run of operations that
    starts from the value [cur]. *)
Definition effect_from {T} (cur : option T) (ops : list (op T)) : option T :=
  foldl (λ _ o, match o with OpEmplace comp => Some comp | OpRemove => None end)
        cur ops.

(** ** What an iteration visits *)

(** The slots of entity [e] in every set of a list, when it holds a
    component in each of them. *)
Fixpoint get_all (sets : list SparseSet) (e : Goent) : option (list loc) :=
  match sets with
  | [] => Some []
  | s :: rest =>
      match Get s e with
      | Ok (Some p) => cons p <$> get_all rest e
      | _ => None
      end
  end.

(** The visitor calls of an iteration driven by [base]: the entities of
    [base] that hold a component in every set, in order, each with its
    slots. *)
Definition calls (sets : list SparseSet) (base : list Goent)
  : list (Goent * list loc) :=
  omap (λ e, pair e <$> get_all sets e) base.

(** Visitors of fixed arity applied to a list of slots. *)
Definition visit2 {W} (f : Goent → loc → loc → W → W)
    (e : Goent) (ps : list loc) (w : W) : W :=
  match ps with [p1; p2] => f e p1 p2 w | _ => w end.

Definition visit3 {W} (f : Goent → loc → loc → loc → W → W)
    (e : Goent) (ps : list loc) (w : W) : W :=
  match ps with [p1; p2; p3] => f e p1 p2 p3 w | _ => w end.

Definition visit4 {W} (f : Goent → loc → loc → loc → loc → W → W)
    (e : Goent) (ps : list loc) (w : W) : W :=
  match ps with [p1; p2; p3; p4] => f e p1 p2 p3 p4 w | _ => w end.

(** Running a visitor over a list of calls, in order. *)
Definition run_calls {W} (g : Goent → list loc → W → W)
    (l : list (Goent * list loc)) (w : W) : W :=
  foldl (λ w c, g c.1 c.2 w) w l.

(** The list [l] of calls visits exactly the entities that hold a
    component of every type of [keys], each once, and passes the slots that
    [GetComponent] finds. *)
Definition visits_exactly (r : Registry) (keys : list gotype)
    (l : list (Goent * list loc)) : Prop :=
  NoDup l.*1
  ∧ (∀ e, e ∈ l.*1 ↔ Forall (λ k, reg_holds r k e) keys)
  ∧ (∀ e ps, (e, ps) ∈ l →
       Forall2 (λ k p, GetComponent r k e = Ok (Some p)) keys ps).

(** The set whose dense sequence drives an iteration after one more
    comparison [if len(s'.dense) < len(baseDense) { baseDense = s'.dense }],
    where [baseDense] is the dense sequence of [s]. *)
Definition smaller (s' s : SparseSet) : SparseSet :=
  if bool_decide (len (dense s') < len (dense s)) then s' else s.

(** The element type a component parameter resolves to (lines 195-198). *)
Definition param_key (paramType : gotype) : gotype :=
  if is_ptr paramType then Elem paramType else paramType.

(** The scenario of ten entities, component [A] on 0, 2, 4, 6, 8 and
    component [B] on 0, 1, 2, 3. *)
Definition scenario_AB {T} (A B : gotype) (a b : Goent → T)
  : result (Registry * list T) :=
  let '(ids, _) := CreateEntities 10 0 in
  '(r, h) ← emplace_components NewRegistry [] A
              (filter (λ e, Z.even e) ids) a;
  emplace_components r h B (take 4 ids) b.

(** ** Sample states *)

(** A set holding entities 3, 7 and 9, as three [Emplace] calls on a new
    set leave it, with the heap of their values. *)
Definition sample_set : SparseSet :=
  {| dense := [3; 7; 9];
     components := [0%nat; 1%nat; 2%nat];
     sparse := <[9%nat := 2]> (<[7%nat := 1]> (<[3%nat := 0]>
                 (replicate 256 invalidIndex))) |}.

Definition sample_heap : list Z := [30; 70; 90].

(** A second set, holding entity 7 only, and a registry with the two sets
    under the types [TNamed 0] and [TNamed 1]. *)
Definition sample_set_B : SparseSet :=
  {| dense := [7];
     components := [3%nat];
     sparse := <[7%nat := 0]> (replicate 256 invalidIndex) |}.

Definition sample_registry : Registry :=
  <[TNamed 1 := sample_set_B]> (<[TNamed 0 := sample_set]> NewRegistry).

(** A heap for the registry: the cells of [sample_heap] and the cell of the
    slot of [sample_set_B]. *)
Definition sample_heap_AB : list Z := sample_heap ++ [700].

(** ** Component values in the registry *)

(** [GetComponent] followed by the dereference of the pointer it returns:
    the value an entity holds for a component type, if any. *)
Definition ReadComponent {T} (r : Registry) (h : list T) (key : gotype)
    (entity : Goent) : result (option T) :=
  c ← GetComponent r key entity;
  match c with
  | None => Ok None
  | Some p => match h !! p with Some v => Ok (Some v) | None => Panic end
  end.

(** No slot belongs to the sets of two component types. *)
Definition reg_disjoint (r : Registry) : Prop :=
  ∀ (k1 k2 : gotype) (s1 s2 : SparseSet) (p : loc),
    r !! k1 = Some s1 → r !! k2 = Some s2 →
    p ∈ components s1 → p ∈ components s2 → k1 = k2.

(** The invariant of a registry with its heap. *)
Definition reg_ok {T} (r : Registry) (h : list T) : Prop :=
  reg_Inv r h ∧ reg_disjoint r.

Definition reg_ok_check {T} (r : Registry) (h : list T) : bool :=
  bool_decide (map_Forall (λ (_ : gotype) ss, Inv_check ss h = true) r)
  && bool_decide (map_Forall (λ (k1 : gotype) s1,
       map_Forall (λ (k2 : gotype) s2,
         k1 = k2 ∨ Forall (λ p : loc, p ∉ components s2) (components s1)) r) r).

(** The slot of an entity in a set ([0] when it has none). *)
Definition slot (s : SparseSet) (e : Goent) : loc :=
  match Get s e with Ok (Some p) => p | _ => 0%nat end.

(** The visitor [func(e, c1 *A, c2 *B) { *c1 = g(e, *c1, *c2) }]. *)
Definition update_first {T} (g : Goent → T → T → T)
    (e : Goent) (p1 p2 : loc) (h : list T) : list T :=
  match h !! p1, h !! p2 with
  | Some a, Some b => store h p1 (g e a b)
  | _, _ => h
  end.

(** The visitors that record the entities, and the calls, they are given. *)
Definition log_entity2 (e : Goent) (_ _ : loc) (log : list Goent)
  : list Goent := log ++ [e].

Definition log_call (e : Goent) (ps : list loc)
    (log : list (Goent * list loc)) : list (Goent * list loc) :=
  log ++ [(e, ps)].

(** ** Basic facts *)

Lemma wrap_int_small (z : Z) : - 2 ^ 63 ≤ z < 2 ^ 63 → wrap_int z = z.
Proof.
  intros Hz. unfold wrap_int, uint64_mod.
  rewrite Z.mod_small; lia.
Qed.

Lemma int_of_Goent_small (e : Goent) : 0 ≤ e < 2 ^ 63 → int_of_Goent e = e.
Proof. intros He. apply wrap_int_small. lia. Qed.

Lemma int_of_Goent_large (e : Goent) :
  2 ^ 63 ≤ e < 2 ^ 64 → int_of_Goent e = e - 2 ^ 64.
Proof.
  intros He. unfold int_of_Goent, wrap_int, uint64_mod.
  replace (e + 2 ^ 63) with ((e - 2 ^ 63) + 1 * 2 ^ 64) by lia.
  rewrite Z_mod_plus_full, Z.mod_small; lia.
Qed.

Lemma int_of_Goent_nonneg (e : Goent) :
  is_Goent e → 0 ≤ int_of_Goent e → 0 ≤ e < 2 ^ 63 ∧ int_of_Goent e = e.
Proof.
  unfold is_Goent, uint64_mod. intros He Hi.
  destruct (decide (e < 2 ^ 63)) as [Hlt | Hge].
  - split; [lia |]. apply int_of_Goent_small. lia.
  - rewrite int_of_Goent_large in Hi by lia. lia.
Qed.

Lemma index_Ok {A} (s : list A) (i : Z) (x : A) :
  index s i = Ok x ↔ 0 ≤ i ∧ s !! Z.to_nat i = Some x.
Proof.
  unfold index. case_bool_decide as Hi.
  - destruct (s !! Z.to_nat i) as [y |] eqn:E; split.
    + intros [= ->]. done.
    + intros [_ [= ->]]. done.
    + done.
    + intros [_ ?]. done.
  - split; [done | intros [? _]; lia].
Qed.

Lemma index_nat {A} (s : list A) (i : nat) (x : A) :
  s !! i = Some x → index s (Z.of_nat i) = Ok x.
Proof. intros H. apply index_Ok. rewrite Nat2Z.id. split; [lia | done]. Qed.

Lemma set_index_Ok {A} (s : list A) (i : Z) (x : A) :
  0 ≤ i < len s → set_index s i x = Ok (<[Z.to_nat i := x]> s).
Proof. intros H. unfold set_index. by rewrite bool_decide_eq_true_2. Qed.

Lemma nextAlignedCapacity_bounds (n : Z) :
  0 ≤ n ≤ 2 ^ 63 - 256 →
  n ≤ nextAlignedCapacity n < 2 ^ 63
  ∧ nextAlignedCapacity n < n + 256
  ∧ Z.rem (nextAlignedCapacity n) alignment = 0.
Proof.
  intros Hn. unfold nextAlignedCapacity, alignment.
  case_bool_decide as Hr; [lia |].
  rewrite Z.rem_mod_nonneg in Hr by lia.
  rewrite Z.quot_div_nonneg by lia.
  pose proof (Z.div_mod n 256 ltac:(lia)) as Hdm.
  pose proof (Z.mod_pos_bound n 256 ltac:(lia)) as Hm.
  assert (n `div` 256 + 1 ≤ 2 ^ 55 - 1) as Hq.
  { assert (n `div` 256 < 2 ^ 55 - 1); [| lia].
    apply Z.div_lt_upper_bound; lia. }
  assert (0 ≤ n `div` 256) by (apply Z.div_pos; lia).
  rewrite (wrap_int_small (n `div` 256 + 1)) by lia.
  rewrite wrap_int_small by lia.
  split_and!; try lia.
  rewrite Z.rem_mod_nonneg by lia. apply Z_mod_mult.
Qed.

Lemma nextAlignedCapacity_overflow (n : Z) :
  2 ^ 63 - 256 < n < 2 ^ 63 → nextAlignedCapacity n < 0.
Proof.
  intros Hn. unfold nextAlignedCapacity, alignment.
  assert (n `div` 256 = 2 ^ 55 - 1) as Hq.
  { symmetry. apply (Z.div_unique n 256 _ (n - (2 ^ 63 - 256))); lia. }
  assert (n `mod` 256 = n - (2 ^ 63 - 256)) as Hm.
  { symmetry. apply (Z.mod_unique n 256 (2 ^ 55 - 1)); lia. }
  rewrite Z.rem_mod_nonneg by lia.
  rewrite bool_decide_eq_false_2 by lia.
  rewrite Z.quot_div_nonneg by lia. rewrite Hq.
  vm_compute. done.
Qed.

Lemma bind_Ok {A B} (m : result A) (f : A → result B) (b : B) :
  m ≫= f = Ok b ↔ ∃ a, m = Ok a ∧ f a = Ok b.
Proof.
  destruct m as [a |]; simpl; split.
  - intros H. by exists a.
  - by intros (a' & [= <-] & H).
  - done.
  - by intros (a' & ? & _).
Qed.

Lemma bind_Ok_l {A B} (a : A) (f : A → result B) : Ok a ≫= f = f a.
Proof. reflexivity. Qed.

Lemma grow_copy (sp : list Z) (n : Z) (zeros : list Z) :
  len sp ≤ n → make_ints n = Ok zeros →
  copy (fill zeros invalidIndex) sp
  = sp ++ replicate (Z.to_nat n - length sp)%nat invalidIndex.
Proof.
  unfold make_ints, copy, fill, len. intros Hn.
  case_bool_decide; [done |]. intros [= <-].
  rewrite !length_replicate.
  rewrite take_ge by lia.
  by rewrite drop_replicate.
Qed.

(** The growth step of [Emplace], in the supported range of handles. *)
Lemma grow_step (sp : list Z) (e : Goent) :
  len sp < 2 ^ 63 → 0 ≤ e → (e < len sp ∨ e + 256 < 2 ^ 63) →
  (if bool_decide (len sp ≤ int_of_Goent e) then
     newSparse ← make_ints (nextAlignedCapacity (wrap_int (int_of_Goent e + 1)));
     Ok (copy (fill newSparse invalidIndex) sp)
   else Ok sp) = Ok (grown sp e)
  ∧ e < len (grown sp e) < 2 ^ 63
  ∧ (len sp ≤ e → len (grown sp e) = nextAlignedCapacity (e + 1)).
Proof.
  intros Hcap He Hr. unfold grown.
  assert (0 ≤ len sp) by (unfold len; lia).
  rewrite int_of_Goent_small by lia.
  case_bool_decide as Hg; [| split_and!; [done | lia | lia | lia]].
  destruct Hr as [Hr | Hr]; [lia |].
  rewrite wrap_int_small by lia.
  destruct (nextAlignedCapacity_bounds (e + 1)) as (Hb & Hb' & _); [lia |].
  assert (make_ints (nextAlignedCapacity (e + 1))
          = Ok (replicate (Z.to_nat (nextAlignedCapacity (e + 1))) 0)) as Hmk.
  { unfold make_ints. by rewrite bool_decide_eq_false_2 by lia. }
  assert (len (sp ++ replicate
            (Z.to_nat (nextAlignedCapacity (e + 1)) - length sp)%nat
            invalidIndex) = nextAlignedCapacity (e + 1)) as Hlen.
  { unfold len in *. rewrite length_app, length_replicate. lia. }
  split_and!.
  - rewrite Hmk. simpl. f_equal. eapply grow_copy; [| exact Hmk]. lia.
  - lia.
  - lia.
  - done.
Qed.

(** A growth step that did not panic stayed in the supported range. *)
Lemma grow_step_inv (sp sp' : list Z) (e : Goent) :
  len sp < 2 ^ 63 → 0 ≤ e < 2 ^ 63 →
  (if bool_decide (len sp ≤ int_of_Goent e) then
     newSparse ← make_ints (nextAlignedCapacity (wrap_int (int_of_Goent e + 1)));
     Ok (copy (fill newSparse invalidIndex) sp)
   else Ok sp) = Ok sp' →
  e < len sp ∨ e + 256 < 2 ^ 63.
Proof.
  intros Hcap He. rewrite int_of_Goent_small by lia.
  case_bool_decide as Hg; [| lia]. intros Hok. right.
  apply bind_Ok in Hok as (zeros & Hmk & _).
  unfold make_ints in Hmk. case_bool_decide as Hneg; [done |].
  destruct (decide (e + 256 < 2 ^ 63)) as [| Hbig]; [done |]. exfalso.
  destruct (decide (e = 2 ^ 63 - 1)) as [-> | Hne].
  - vm_compute in Hneg. by apply Hneg.
  - rewrite wrap_int_small in Hneg by lia.
    pose proof (nextAlignedCapacity_overflow (e + 1)). lia.
Qed.

(** ** Lookup *)

Section lookup.
Variable ss : SparseSet.
Hypothesis Hwf : wf ss.

Lemma wf_dense_lt (i : nat) (e : Goent) :
  dense ss !! i = Some e → e < len (sparse ss).
Proof.
  intros Hd. destruct (wf_dense ss Hwf i e Hd) as [He Hs].
  apply lookup_lt_Some in Hs. unfold len. lia.
Qed.

Lemma wf_NoDup_dense : NoDup (dense ss).
Proof.
  apply NoDup_alt. intros i j e Hi Hj.
  destruct (wf_dense ss Hwf i e Hi) as [_ Hsi].
  destruct (wf_dense ss Hwf j e Hj) as [_ Hsj].
  rewrite Hsi in Hsj. injection Hsj. lia.
Qed.

(** [sparse[e] == i] iff [dense[i] == e]. *)
Lemma wf_sparse_dense_iff (e : Goent) (i : nat) :
  0 ≤ e →
  sparse ss !! Z.to_nat e = Some (Z.of_nat i) ↔ dense ss !! i = Some e.
Proof.
  intros He. split.
  - intros Hs. destruct (wf_sparse ss Hwf _ _ Hs) as [Hv | [_ Hd]].
    + unfold invalidIndex in Hv. lia.
    + rewrite Nat2Z.id, Z2Nat.id in Hd by lia. done.
  - intros Hd. by destruct (wf_dense ss Hwf i e Hd).
Qed.

(** [sparse[e]] is the absent marker iff [e] holds no component. *)
Lemma wf_absent_iff (e : Goent) :
  0 ≤ e < len (sparse ss) →
  sparse ss !! Z.to_nat e = Some invalidIndex ↔ ¬ holds ss e.
Proof.
  intros He. unfold holds. split.
  - intros Hs [i Hd]%list_elem_of_lookup.
    destruct (wf_dense ss Hwf i e Hd) as [_ Hs'].
    rewrite Hs in Hs'. injection Hs'. unfold invalidIndex. lia.
  - intros Hn.
    destruct (lookup_lt_is_Some_2 (sparse ss) (Z.to_nat e)) as [v Hv].
    { unfold len in He. lia. }
    destruct (wf_sparse ss Hwf _ _ Hv) as [-> | [Hv0 Hd]]; [done |].
    exfalso. apply Hn. rewrite Z2Nat.id in Hd by lia.
    eapply list_elem_of_lookup_2. exact Hd.
Qed.

Lemma Get_holds (i : nat) (e : Goent) :
  dense ss !! i = Some e →
  ∃ p, components ss !! i = Some p ∧ Get ss e = Ok (Some p).
Proof.
  intros Hd. destruct (wf_dense ss Hwf i e Hd) as [He Hs].
  pose proof (wf_dense_lt i e Hd) as Hlt.
  destruct (lookup_lt_is_Some_2 (components ss) i) as [p Hp].
  { rewrite <- (wf_aligned ss Hwf). by eapply lookup_lt_Some. }
  exists p. split; [done |]. unfold Get.
  rewrite int_of_Goent_small by done.
  rewrite bool_decide_eq_false_2 by lia.
  rewrite (proj2 (index_Ok _ _ _) (conj (proj1 He) Hs)). simpl.
  rewrite bool_decide_eq_false_2 by (unfold invalidIndex; lia).
  by rewrite (index_nat _ _ _ Hp).
Qed.

Lemma Get_absent (e : Goent) :
  0 ≤ e < 2 ^ 63 → ¬ holds ss e → Get ss e = Ok None.
Proof.
  intros He Hn. unfold Get. rewrite int_of_Goent_small by done.
  case_bool_decide as Hlen; [done |].
  assert (sparse ss !! Z.to_nat e = Some invalidIndex) as Hs.
  { apply wf_absent_iff; [lia | done]. }
  rewrite (proj2 (index_Ok _ _ _) (conj (proj1 He) Hs)). reflexivity.
Qed.

Lemma Get_total (e : Goent) :
  0 ≤ e < 2 ^ 63 →
  ∃ o, Get ss e = Ok o ∧ (is_Some o ↔ holds ss e).
Proof.
  intros He. destruct (decide (e ∈ dense ss)) as [Hin | Hn].
  - destruct (proj1 (list_elem_of_lookup _ _) Hin) as [i Hd].
    destruct (Get_holds i e Hd) as (p & _ & HG).
    exists (Some p). split; [done |]. split; [done | by eexists].
  - exists None. split; [by apply Get_absent |].
    split; [by intros [? ?] | done].
Qed.

Lemma Get_Some_inv (e : Goent) (p : loc) :
  is_Goent e → Get ss e = Ok (Some p) →
  ∃ i, dense ss !! i = Some e ∧ components ss !! i = Some p.
Proof.
  intros He HG. unfold Get in HG.
  case_bool_decide as Hlen; [done |].
  apply bind_Ok in HG as (cur & Hcur & HG).
  apply index_Ok in Hcur as [Hi Hcur].
  destruct (int_of_Goent_nonneg e He Hi) as [He' Heq]. rewrite Heq in *.
  case_bool_decide as Hinv; [done |].
  apply bind_Ok in HG as (q & Hq & [= ->]).
  apply index_Ok in Hq as [Hc0 Hq].
  destruct (wf_sparse ss Hwf _ _ Hcur) as [? | [_ Hd]]; [done |].
  exists (Z.to_nat cur). rewrite Z2Nat.id in Hd by lia. done.
Qed.
End lookup.

(** ** Emplace *)

Lemma grown_lookup_old (sp : list Z) (e : Goent) (j : nat) :
  (j < length sp)%nat → grown sp e !! j = sp !! j.
Proof.
  intros Hj. unfold grown. case_bool_decide; [| done].
  by rewrite lookup_app_l.
Qed.

Lemma grown_lookup_new (sp : list Z) (e : Goent) (j : nat) (v : Z) :
  (length sp ≤ j)%nat → grown sp e !! j = Some v → v = invalidIndex.
Proof.
  intros Hj. unfold grown. case_bool_decide.
  - rewrite lookup_app_r by done. by intros [-> _]%lookup_replicate.
  - intros Hl%lookup_lt_Some. lia.
Qed.

Lemma grown_prefix (sp : list Z) (e : Goent) : sp `prefix_of` grown sp e.
Proof.
  unfold grown. case_bool_decide; [by eexists | done].
Qed.

Lemma wf_grown (ss : SparseSet) (e : Goent) :
  wf ss → 0 ≤ e → (e < len (sparse ss) ∨ e + 256 < 2 ^ 63) →
  wf {| dense := dense ss; components := components ss;
        sparse := grown (sparse ss) e |}.
Proof.
  intros Hwf He Hr.
  destruct (grow_step (sparse ss) e (wf_cap ss Hwf) He Hr) as (_ & Hlen & _).
  constructor; simpl.
  - apply (wf_aligned ss Hwf).
  - intros i e' Hd. destruct (wf_dense ss Hwf i e' Hd) as [He' Hs].
    split; [done |]. rewrite grown_lookup_old; [done |].
    by eapply lookup_lt_Some.
  - intros j v Hv. destruct (decide (j < length (sparse ss))%nat) as [Hj | Hj].
    + rewrite grown_lookup_old in Hv by done. by apply (wf_sparse ss Hwf).
    + left. eapply grown_lookup_new; [| exact Hv]. lia.
  - apply (wf_slots ss Hwf).
  - lia.
Qed.

Lemma Emplace_overwrite {T} (ss : SparseSet) (h : list T) (e : Goent)
    (c : T) (p : loc) :
  Get ss e = Ok (Some p) → Emplace ss h e c = Ok (ss, store h p c).
Proof.
  unfold Get, Emplace. intros HG.
  case_bool_decide as Hlen; [done |].
  apply bind_Ok in HG as (cur & Hcur & HG).
  case_bool_decide as Hinv; [done |].
  apply bind_Ok in HG as (q & Hq & [= ->]).
  simpl. rewrite Hcur. simpl.
  rewrite bool_decide_eq_true_2 by done.
  rewrite Hq. simpl. by destruct ss.
Qed.

Lemma Emplace_fresh {T} (ss : SparseSet) (h : list T) (e : Goent) (c : T) :
  wf ss → 0 ≤ e → (e < len (sparse ss) ∨ e + 256 < 2 ^ 63) → ¬ holds ss e →
  Emplace ss h e c
  = Ok ({| dense := dense ss ++ [e];
           components := components ss ++ [length h];
           sparse := <[Z.to_nat e := len (dense ss)]> (grown (sparse ss) e) |},
        h ++ [c]).
Proof.
  intros Hwf He Hr Hn. unfold Emplace. cbv zeta.
  destruct (grow_step (sparse ss) e (wf_cap ss Hwf) He Hr) as (-> & Hlen & _).
  assert (e < 2 ^ 63) as He63 by lia.
  rewrite int_of_Goent_small by lia. simpl.
  assert (grown (sparse ss) e !! Z.to_nat e = Some invalidIndex) as Hs.
  { pose proof (wf_grown ss e Hwf He Hr) as Hwf'.
    apply (wf_absent_iff _ Hwf' e); simpl; [lia | done]. }
  rewrite (proj2 (index_Ok _ _ _) (conj He Hs)). simpl.
  rewrite set_index_Ok by lia. reflexivity.
Qed.

Lemma Inv_overwrite {T} (ss : SparseSet) (h : list T) (p : loc) (c : T) :
  Inv ss h → Inv ss (store h p c).
Proof.
  intros [Hwf Hal]. split; [done |].
  intros q Hq. unfold store. rewrite length_insert. by apply Hal.
Qed.

Lemma Inv_fresh {T} (ss : SparseSet) (h : list T) (e : Goent) (c : T) :
  Inv ss h → 0 ≤ e → (e < len (sparse ss) ∨ e + 256 < 2 ^ 63) →
  ¬ holds ss e →
  Inv {| dense := dense ss ++ [e];
         components := components ss ++ [length h];
         sparse := <[Z.to_nat e := len (dense ss)]> (grown (sparse ss) e) |}
      (h ++ [c]).
Proof.
  intros [Hwf Hal] He Hr Hn.
  pose proof (wf_grown ss e Hwf He Hr) as Hwf'.
  destruct (grow_step (sparse ss) e (wf_cap ss Hwf) He Hr) as (_ & Hlen & _).
  assert (Z.to_nat e < length (grown (sparse ss) e))%nat as Hlt.
  { unfold len in Hlen. lia. }
  split; [constructor; simpl |].
  - rewrite !length_app. simpl. by rewrite (wf_aligned ss Hwf).
  - intros i e' Hd. apply lookup_app_Some in Hd as [Hd | [Hi Hd]].
    + destruct (wf_dense _ Hwf' i e' Hd) as [He' Hs]. simpl in Hs.
      split; [done |]. rewrite list_lookup_insert_ne; [done |].
      intros Heq. apply Hn. assert (e = e') as -> by lia.
      eapply list_elem_of_lookup_2. exact Hd.
    + apply list_lookup_singleton_Some in Hd as [Hi0 <-].
      split; [lia |]. rewrite list_lookup_insert_eq by done.
      f_equal. unfold len. lia.
  - intros j v Hv. destruct (decide (j = Z.to_nat e)) as [-> | Hne].
    + rewrite list_lookup_insert_eq in Hv by done. injection Hv as <-.
      right. unfold len. split; [lia |]. rewrite Nat2Z.id, Z2Nat.id by lia.
      by rewrite lookup_app_r, Nat.sub_diag.
    + rewrite list_lookup_insert_ne in Hv by done.
      destruct (wf_sparse _ Hwf' j v Hv) as [? | [Hv0 Hd]]; [by left |].
      right. split; [done |]. simpl in Hd. by apply lookup_app_l_Some.
  - apply NoDup_app. split_and!.
    + apply (wf_slots ss Hwf).
    + intros q Hq ->%list_elem_of_singleton.
      specialize (Hal _ Hq). lia.
    + apply NoDup_singleton.
  - unfold len. rewrite length_insert. unfold len in Hlen. lia.
  - intros q Hq. simpl in Hq. rewrite length_app. simpl.
    apply elem_of_app in Hq as [Hq | ->%list_elem_of_singleton]; [| lia].
    specialize (Hal _ Hq). lia.
Qed.

(** ** Remove *)

Lemma Remove_noop (ss : SparseSet) (e : Goent) :
  Get ss e = Ok None → Remove ss e = Ok ss.
Proof.
  unfold Get, Remove. case_bool_decide; [done |].
  destruct (index (sparse ss) (int_of_Goent e)) as [cur |]; simpl; [| done].
  case_bool_decide; [done |].
  by destruct (index (components ss) cur).
Qed.

Lemma lookup_take_insert {A} (l : list A) (m i k : nat) (x y : A) :
  take m (<[i := x]> l) !! k = Some y ↔
  (k < m)%nat ∧ ((k = i ∧ (i < length l)%nat ∧ y = x) ∨ (k ≠ i ∧ l !! k = Some y)).
Proof.
  rewrite lookup_take_Some, list_lookup_insert_Some. split.
  - intros [[(-> & -> & Hl) | [Hne Hl]] Hm]; (split; [done |]).
    + left. done.
    + right. done.
  - intros [Hm [(-> & Hl & ->) | [Hne Hl]]]; (split; [| done]).
    + left. done.
    + right. done.
Qed.

Lemma wf_dense_le_sparse (ss : SparseSet) :
  wf ss → (length (dense ss) ≤ length (sparse ss))%nat.
Proof.
  intros Hwf.
  assert (Z.to_nat <$> dense ss ⊆+ seq 0%nat (length (sparse ss))) as Hsub;
    [| apply submseteq_length in Hsub;
       by rewrite length_fmap, length_seq in Hsub].
  apply NoDup_submseteq.
  - apply NoDup_fmap_2_strong; [| by apply wf_NoDup_dense].
    intros x y [i Hx]%list_elem_of_lookup [j Hy]%list_elem_of_lookup Heq.
    destruct (wf_dense ss Hwf i x Hx) as [? _].
    destruct (wf_dense ss Hwf j y Hy) as [? _]. lia.
  - intros k (x & -> & [i Hx]%list_elem_of_lookup)%list_elem_of_fmap.
    destruct (wf_dense ss Hwf i x Hx) as [_ Hs%lookup_lt_Some].
    apply elem_of_seq. lia.
Qed.

Section remove.
Variable ss : SparseSet.
Hypothesis Hwf : wf ss.
Variables (i : nat) (e : Goent).
Hypothesis Hd : dense ss !! i = Some e.

Local Abbreviation n := (length (dense ss)).

Lemma remove_last_exists :
  ∃ lastEntity lastComp,
    dense ss !! (n - 1)%nat = Some lastEntity
    ∧ components ss !! (n - 1)%nat = Some lastComp.
Proof.
  pose proof (lookup_lt_Some _ _ _ Hd) as Hi.
  destruct (lookup_lt_is_Some_2 (dense ss) (n - 1)) as [le Hle];
    [lia |].
  destruct (lookup_lt_is_Some_2 (components ss) (n - 1)) as [lc Hlc];
    [rewrite <- (wf_aligned ss Hwf); lia |].
  by exists le, lc.
Qed.

Variables (lastEntity : Goent) (lastComp : loc).
Hypothesis Hle : dense ss !! (n - 1)%nat = Some lastEntity.
Hypothesis Hlc : components ss !! (n - 1)%nat = Some lastComp.

Lemma Remove_holds : Remove ss e = Ok (swap_removed ss e i lastEntity lastComp).
Proof.
  pose proof (lookup_lt_Some _ _ _ Hd) as Hi.
  destruct (wf_dense ss Hwf i e Hd) as [He Hs].
  destruct (wf_dense ss Hwf _ _ Hle) as [Hl Hsl].
  pose proof (lookup_lt_Some _ _ _ Hs) as Helt.
  pose proof (lookup_lt_Some _ _ _ Hsl) as Hllt.
  pose proof (wf_dense_le_sparse ss Hwf) as Hds.
  pose proof (wf_cap ss Hwf) as Hcap. unfold len in Hcap.
  pose proof (wf_aligned ss Hwf) as Hal.
  unfold Remove. cbv zeta.
  rewrite int_of_Goent_small by done.
  rewrite bool_decide_eq_false_2 by (unfold len; lia).
  rewrite (proj2 (index_Ok _ _ _) (conj (proj1 He) Hs)). simpl.
  rewrite bool_decide_eq_false_2 by (unfold invalidIndex; lia).
  assert (wrap_int (len (dense ss) - 1) = Z.of_nat (n - 1)) as ->.
  { unfold len. rewrite wrap_int_small; lia. }
  rewrite (index_nat _ _ _ Hle). simpl.
  rewrite (set_index_Ok (dense ss)) by (unfold len; lia). simpl.
  rewrite (index_nat _ _ _ Hlc). simpl.
  rewrite (set_index_Ok (components ss)) by (unfold len; lia). simpl.
  rewrite int_of_Goent_small by done.
  rewrite (set_index_Ok (sparse ss)) by (unfold len; lia). simpl.
  unfold slice_to.
  rewrite bool_decide_eq_true_2
    by (unfold len; rewrite length_insert; lia). simpl.
  rewrite bool_decide_eq_true_2
    by (unfold len; rewrite length_insert; lia). simpl.
  rewrite set_index_Ok by (unfold len; rewrite length_insert; lia). simpl.
  unfold swap_removed. by rewrite !Nat2Z.id.
Qed.

Lemma wf_swap_removed : wf (swap_removed ss e i lastEntity lastComp).
Proof.
  pose proof (lookup_lt_Some _ _ _ Hd) as Hi.
  destruct (wf_dense ss Hwf i e Hd) as [He Hs].
  destruct (wf_dense ss Hwf _ _ Hle) as [Hl Hsl].
  pose proof (lookup_lt_Some _ _ _ Hs) as Helt.
  pose proof (lookup_lt_Some _ _ _ Hsl) as Hllt.
  pose proof (wf_aligned ss Hwf) as Hal.
  assert (lastEntity = e → i = (n - 1)%nat) as Hsame.
  { intros ->. rewrite Hs in Hsl. injection Hsl. lia. }
  constructor; unfold swap_removed; simpl.
  - rewrite !length_take, !length_insert. lia.
  - intros k x Hk. apply lookup_take_insert in Hk as [Hkn Hk].
    destruct Hk as [(-> & _ & ->) | [Hki Hk]].
    + split; [done |].
      rewrite list_lookup_insert_ne.
      * by rewrite list_lookup_insert_eq.
      * intros Heq. assert (lastEntity = e) as Hx by lia.
        specialize (Hsame Hx). lia.
    + destruct (wf_dense ss Hwf k x Hk) as [Hx Hsx]. split; [done |].
      rewrite !list_lookup_insert_ne; [done | |].
      * intros Heq. assert (lastEntity = x) as -> by lia.
        rewrite Hsl in Hsx. injection Hsx. lia.
      * intros Heq. assert (e = x) as -> by lia.
        rewrite Hs in Hsx. injection Hsx. lia.
  - intros j v Hv.
    apply list_lookup_insert_Some in Hv as [(<- & <- & _) | [Hje Hv]];
      [by left |].
    apply list_lookup_insert_Some in Hv as [(<- & <- & _) | [Hjl Hv]].
    + right. split; [lia |]. rewrite Nat2Z.id, Z2Nat.id by lia.
      apply lookup_take_insert. split; [| left; by split_and!].
      assert (i ≠ (n - 1)%nat); [| lia].
      intros ->. rewrite Hle in Hd. injection Hd as ->. done.
    + destruct (wf_sparse ss Hwf j v Hv) as [? | [Hv0 Hdv]]; [by left |].
      right. split; [done |].
      pose proof (lookup_lt_Some _ _ _ Hdv) as Hvn.
      apply lookup_take_insert.
      assert (Z.to_nat v ≠ i) as Hvi.
      { intros <-. rewrite Hdv in Hd. injection Hd as <-.
        apply Hje. by rewrite Nat2Z.id. }
      assert (Z.to_nat v ≠ (n - 1)%nat) as Hvl.
      { intros Heq. rewrite Heq in Hdv. rewrite Hdv in Hle.
        injection Hle as <-. apply Hjl. by rewrite Nat2Z.id. }
      split; [lia | right; done].
  - apply NoDup_alt. intros a b p Ha Hb.
    apply lookup_take_insert in Ha as [Han Ha].
    apply lookup_take_insert in Hb as [Hbn Hb].
    pose proof (wf_slots ss Hwf) as Hnd.
    destruct Ha as [(-> & _ & ->) | [Hai Ha]];
      destruct Hb as [(-> & _ & Hp) | [Hbi Hb]]; try done.
    + pose proof (NoDup_lookup _ _ _ _ Hnd Hlc Hb). lia.
    + subst p. pose proof (NoDup_lookup _ _ _ _ Hnd Hlc Ha). lia.
    + by eapply NoDup_lookup.
  - unfold len. rewrite !length_insert. apply (wf_cap ss Hwf).
Qed.

Lemma swap_removed_slots (p : loc) :
  p ∈ components (swap_removed ss e i lastEntity lastComp) →
  p ∈ components ss.
Proof.
  unfold swap_removed. simpl. intros [k Hk]%list_elem_of_lookup.
  apply lookup_take_insert in Hk as [_ [(_ & _ & ->) | [_ Hk]]];
    by eapply list_elem_of_lookup_2.
Qed.

Lemma swap_removed_absent :
  ¬ holds (swap_removed ss e i lastEntity lastComp) e.
Proof.
  apply (wf_absent_iff _ wf_swap_removed).
  - destruct (wf_dense ss Hwf i e Hd) as [He Hs].
    pose proof (lookup_lt_Some _ _ _ Hs).
    unfold swap_removed, len; simpl. rewrite !length_insert. lia.
  - unfold swap_removed; simpl. apply list_lookup_insert_eq.
    rewrite length_insert.
    destruct (wf_dense ss Hwf i e Hd) as [_ Hs].
    by eapply lookup_lt_Some.
Qed.
End remove.

(** ** The executable invariant is sound *)

Lemma wf_check_sound (ss : SparseSet) : wf_check ss = true → wf ss.
Proof.
  unfold wf_check. rewrite !andb_true_iff, !bool_decide_eq_true.
  intros ((((Hal & Hd) & Hs) & Hnd) & Hcap).
  constructor; try done.
  - intros i e Hi. rewrite Forall_lookup in Hd.
    apply (Hd i (i, e)). by rewrite list_lookup_imap, Hi.
  - intros j v Hj. rewrite Forall_lookup in Hs.
    apply (Hs j (j, v)). by rewrite list_lookup_imap, Hj.
Qed.

Lemma Inv_check_sound {T} (ss : SparseSet) (h : list T) :
  Inv_check ss h = true → Inv ss h.
Proof.
  unfold Inv_check. rewrite andb_true_iff, bool_decide_eq_true.
  intros [Hwf Hal]. split; [by apply wf_check_sound |].
  intros p Hp. rewrite Forall_forall in Hal. by apply Hal.
Qed.

Lemma reg_wf_check_sound (r : Registry) : reg_wf_check r = true → reg_wf r.
Proof.
  unfold reg_wf_check. rewrite bool_decide_eq_true.
  intros Hall k ss Hk. apply wf_check_sound. by apply (Hall k ss).
Qed.

Lemma wf_NewSparseSet : wf NewSparseSet.
Proof. apply wf_check_sound. vm_compute. reflexivity. Qed.

Lemma Inv_NewSparseSet {T} (h : list T) : Inv NewSparseSet h.
Proof. split; [apply wf_NewSparseSet |]. intros p Hp. inversion Hp. Qed.

(** ** Consequences for the operations *)

Lemma Emplace_Ok_range {T} (ss : SparseSet) (h : list T) (e : Goent) (c : T)
    (st : SparseSet * list T) :
  wf ss → is_Goent e → Emplace ss h e c = Ok st →
  0 ≤ e < 2 ^ 63 ∧ (e < len (sparse ss) ∨ e + 256 < 2 ^ 63).
Proof.
  intros Hwf He HE. unfold Emplace in HE. cbv zeta in HE.
  apply bind_Ok in HE as (sp & Hsp & HE).
  apply bind_Ok in HE as (cur & Hcur & _).
  apply index_Ok in Hcur as [Hi _].
  destruct (int_of_Goent_nonneg e He Hi) as [He' _].
  split; [done |].
  eapply grow_step_inv; [apply (wf_cap ss Hwf) | done | exact Hsp].
Qed.

(** [Emplace] in the supported range: it returns, the set stays well
    formed, and the entity then holds the value. *)
Lemma Emplace_total {T} (ss : SparseSet) (h : list T) (e : Goent) (c : T) :
  Inv ss h → 0 ≤ e → (e < len (sparse ss) ∨ e + 256 < 2 ^ 63) →
  ∃ ss' h' p,
    Emplace ss h e c = Ok (ss', h') ∧ Inv ss' h'
    ∧ Get ss' e = Ok (Some p) ∧ h' !! p = Some c
    ∧ (holds ss e → ss' = ss ∧ h' = store h p c)
    ∧ (¬ holds ss e →
       ss' = {| dense := dense ss ++ [e];
                components := components ss ++ [length h];
                sparse := <[Z.to_nat e := len (dense ss)]>
                            (grown (sparse ss) e) |}
       ∧ h' = h ++ [c] ∧ p = length h).
Proof.
  intros HI He Hr. pose proof HI as [Hwf Hal].
  destruct (decide (holds ss e)) as [Hh | Hn].
  - destruct (proj1 (list_elem_of_lookup _ _) Hh) as [i Hd].
    destruct (Get_holds ss Hwf i e Hd) as (p & Hp & HG).
    exists ss, (store h p c), p. split_and!; try done.
    + by apply Emplace_overwrite.
    + by apply Inv_overwrite.
    + unfold store. apply list_lookup_insert_eq. apply Hal.
      by eapply list_elem_of_lookup_2.
  - pose proof (Inv_fresh ss h e c HI He Hr Hn) as HI'.
    eexists _, _, (length h). split_and!.
    + by apply Emplace_fresh.
    + exact HI'.
    + destruct HI' as [Hwf' _].
      destruct (Get_holds _ Hwf' (length (dense ss)) e) as (p & Hp & HG).
      { simpl. by rewrite lookup_app_r, Nat.sub_diag. }
      simpl in Hp. rewrite lookup_app_r in Hp
        by (rewrite (wf_aligned ss Hwf); lia).
      rewrite (wf_aligned ss Hwf), Nat.sub_diag in Hp.
      injection Hp as <-. exact HG.
    + by rewrite lookup_app_r, Nat.sub_diag.
    + done.
    + done.
Qed.

Lemma Emplace_Inv {T} (ss ss' : SparseSet) (h h' : list T) (e : Goent) (c : T) :
  Inv ss h → is_Goent e → Emplace ss h e c = Ok (ss', h') → Inv ss' h'.
Proof.
  intros HI He HE.
  destruct (Emplace_Ok_range ss h e c _ (proj1 HI) He HE) as [He' Hr].
  destruct (Emplace_total ss h e c HI (proj1 He') Hr)
    as (ss2 & h2 & p & HE2 & HI2 & _).
  rewrite HE in HE2. by injection HE2 as -> ->.
Qed.

(** [Remove] in the range of non-negative indices: it returns, the set
    stays well formed and keeps only slots it had, and the entity no longer
    holds a component. *)
Lemma Remove_total (ss : SparseSet) (e : Goent) :
  wf ss → 0 ≤ e < 2 ^ 63 →
  ∃ ss', Remove ss e = Ok ss' ∧ wf ss' ∧ ¬ holds ss' e
    ∧ (∀ p, p ∈ components ss' → p ∈ components ss)
    ∧ (¬ holds ss e → ss' = ss)
    ∧ (holds ss e → length (dense ss') = (length (dense ss) - 1)%nat).
Proof.
  intros Hwf He. destruct (decide (holds ss e)) as [Hh | Hn].
  - destruct (proj1 (list_elem_of_lookup _ _) Hh) as [i Hd].
    destruct (remove_last_exists ss Hwf i e Hd) as (le & lc & Hle & Hlc).
    exists (swap_removed ss e i le lc). split_and!.
    + by apply Remove_holds.
    + by apply wf_swap_removed.
    + by apply swap_removed_absent.
    + by apply swap_removed_slots.
    + done.
    + intros _. unfold swap_removed. simpl.
      rewrite length_take, length_insert. lia.
  - exists ss. split_and!; try done.
    apply Remove_noop. by apply Get_absent.
Qed.

Lemma Remove_Ok_range (ss ss' : SparseSet) (e : Goent) :
  wf ss → is_Goent e → Remove ss e = Ok ss' → 0 ≤ e < 2 ^ 63.
Proof.
  intros Hwf He HR. unfold Remove in HR. cbv zeta in HR.
  assert (0 ≤ int_of_Goent e) as Hi.
  { case_bool_decide as Hlen.
    - unfold len in Hlen. lia.
    - apply bind_Ok in HR as (cur & Hcur & _).
      by apply index_Ok in Hcur as [Hi _]. }
  by destruct (int_of_Goent_nonneg e He Hi).
Qed.

Lemma Remove_Inv {T} (ss ss' : SparseSet) (h : list T) (e : Goent) :
  Inv ss h → is_Goent e → Remove ss e = Ok ss' → Inv ss' h.
Proof.
  intros [Hwf Hal] He HR.
  pose proof (Remove_Ok_range ss ss' e Hwf He HR) as He'.
  destruct (Remove_total ss e Hwf He') as (ss2 & HR2 & Hwf2 & _ & Hsl & _).
  rewrite HR in HR2. injection HR2 as <-.
  split; [done |]. intros p Hp. apply Hal. by apply Hsl.
Qed.

Lemma read_holds {T} (ss : SparseSet) (h : list T) (e : Goent) (p : loc) (v : T) :
  Get ss e = Ok (Some p) → h !! p = Some v → read ss h e = Ok (Some v).
Proof. intros HG Hp. unfold read. rewrite HG. simpl. by rewrite Hp. Qed.

Lemma read_absent {T} (ss : SparseSet) (h : list T) (e : Goent) :
  Get ss e = Ok None → read ss h e = Ok None.
Proof. intros HG. unfold read. by rewrite HG. Qed.

Lemma last_effect_from {T} (ops : list (op T)) (cur : option T) :
  effect_from cur ops
  = match last ops with
    | Some (OpEmplace comp) => Some comp
    | Some OpRemove => None
    | None => cur
    end.
Proof.
  unfold effect_from. induction ops as [| o ops IH] using rev_ind; [done |].
  rewrite foldl_app, last_snoc. simpl. by destruct o.
Qed.

Lemma run_ops_spec {T} (e : Goent) (ops : list (op T)) :
  0 ≤ e → e + 256 < 2 ^ 63 →
  ∀ (ss : SparseSet) (h : list T) (cur : option T),
    Inv ss h → read ss h e = Ok cur →
    ∃ ss' h', run_ops e (ss, h) ops = Ok (ss', h') ∧ Inv ss' h'
      ∧ read ss' h' e = Ok (effect_from cur ops).
Proof.
  intros He Hr. induction ops as [| o ops IH]; intros ss h cur HI Hcur.
  - by exists ss, h.
  - destruct o as [c |]; simpl.
    + destruct (Emplace_total ss h e c HI He (or_intror Hr))
        as (ss1 & h1 & p & -> & HI1 & HG & Hp & _).
      simpl. apply (IH ss1 h1 (Some c) HI1).
      by eapply read_holds.
    + destruct (Remove_total ss e (proj1 HI) ltac:(lia))
        as (ss1 & HR & Hwf1 & Hn & Hsl & _).
      rewrite HR. simpl. apply (IH ss1 h None).
      * split; [done |]. intros p Hp. apply (proj2 HI). by apply Hsl.
      * apply read_absent, Get_absent; [done | lia | done].
Qed.

(** Holding entities keep their slot and value when another entity is
    appended. *)
Lemma read_fresh_frame {T} (ss : SparseSet) (h : list T) (e x : Goent) (c : T) :
  Inv ss h → 0 ≤ e → (e < len (sparse ss) ∨ e + 256 < 2 ^ 63) →
  ¬ holds ss e → holds ss x →
  read {| dense := dense ss ++ [e];
          components := components ss ++ [length h];
          sparse := <[Z.to_nat e := len (dense ss)]> (grown (sparse ss) e) |}
       (h ++ [c]) x
  = read ss h x
  ∧ ∃ v, read ss h x = Ok (Some v).
Proof.
  intros HI He Hr Hn Hx. pose proof HI as [Hwf Hal].
  destruct (Inv_fresh ss h e c HI He Hr Hn) as [Hwf' _].
  destruct (proj1 (list_elem_of_lookup _ _) Hx) as [i Hd].
  destruct (Get_holds ss Hwf i x Hd) as (p & Hp & HG).
  destruct (Get_holds _ Hwf' i x) as (p' & Hp' & HG').
  { simpl. by apply lookup_app_l_Some. }
  simpl in Hp'. rewrite (lookup_app_l_Some _ _ _ _ Hp) in Hp'.
  injection Hp' as <-.
  assert (p < length h)%nat as Hlt.
  { apply Hal. by eapply list_elem_of_lookup_2. }
  destruct (lookup_lt_is_Some_2 h p Hlt) as [v Hv].
  rewrite (read_holds ss h x p v HG Hv).
  split; [| by exists v].
  apply (read_holds _ _ x p v HG'). by apply lookup_app_l_Some.
Qed.

(** * Properties of the sparse set *)

Lemma Inv_sample : Inv sample_set sample_heap.
Proof. apply Inv_check_sound. vm_compute. reflexivity. Qed.

(** C10: for an entity that already holds a component, a repeated [Emplace]
    writes the new value through the slot the entity already had: the
    pointer returned by [Get] is the same before and after, the sequences
    [dense], [components] and [sparse] are unchanged (so their lengths are,
    and [dense] still has no duplicate), and only the cell of that slot
    changes in the heap. *)
Theorem C10_emplace_overwrites_in_place {T} (ss : SparseSet) (h : list T)
    (e : Goent) (c : T) :
  Inv ss h → is_Goent e → holds ss e →
  ∃ p ss' h',
    Get ss e = Ok (Some p)
    ∧ Emplace ss h e c = Ok (ss', h')
    ∧ Get ss' e = Ok (Some p)
    ∧ components ss' = components ss
    ∧ dense ss' = dense ss ∧ sparse ss' = sparse ss
    ∧ length (dense ss') = length (dense ss)
    ∧ length (components ss') = length (components ss)
    ∧ length (sparse ss') = length (sparse ss)
    ∧ NoDup (dense ss')
    ∧ h' !! p = Some c
    ∧ (∀ q, q ≠ p → h' !! q = h !! q).
Proof.
  intros HI He Hh. pose proof HI as [Hwf Hal].
  destruct (proj1 (list_elem_of_lookup _ _) Hh) as [i Hd].
  destruct (Get_holds ss Hwf i e Hd) as (p & Hp & HG).
  exists p, ss, (store h p c). split_and!; try done.
  - by apply Emplace_overwrite.
  - by apply wf_NoDup_dense.
  - unfold store. apply list_lookup_insert_eq, Hal.
    by eapply list_elem_of_lookup_2.
  - intros q Hq. unfold store. by apply list_lookup_insert_ne.
Qed.

Lemma C10_witness :
  ∃ p ss' h',
    Get sample_set 7 = Ok (Some p)
    ∧ Emplace sample_set sample_heap 7 71 = Ok (ss', h')
    ∧ Get ss' 7 = Ok (Some p)
    ∧ components ss' = components sample_set
    ∧ dense ss' = dense sample_set ∧ sparse ss' = sparse sample_set
    ∧ length (dense ss') = length (dense sample_set)
    ∧ length (components ss') = length (components sample_set)
    ∧ length (sparse ss') = length (sparse sample_set)
    ∧ NoDup (dense ss')
    ∧ h' !! p = Some 71
    ∧ (∀ q, q ≠ p → h' !! q = sample_heap !! q).
Proof.
  apply (C10_emplace_overwrites_in_place sample_set sample_heap 7 71).
  - apply Inv_check_sound. vm_compute. reflexivity.
  - unfold is_Goent, uint64_mod. lia.
  - apply (bool_decide_unpack _). vm_compute. exact I.
Defined.






(** C7: when an [Emplace] on a handle at or beyond the sparse capacity
    returns, every sparse entry below the old capacity is what it was,
    [dense] and [components] are the old sequences with one entry appended,
    every cell of the heap keeps its value, and every entity that held a
    component still reads the same value.  In particular, emplacing [v e]
    on the entities 0 to 299 of a new set (the capacity grows from 256 to
    512 on the way) leaves every one of them found with its value. *)
Theorem C7_growth_preserves_entries {T} :
  (∀ (ss ss' : SparseSet) (h h' : list T) (e : Goent) (c : T),
     Inv ss h → is_Goent e → len (sparse ss) ≤ int_of_Goent e →
     Emplace ss h e c = Ok (ss', h') →
     (∀ j, (j < length (sparse ss))%nat → sparse ss' !! j = sparse ss !! j)
     ∧ dense ss' = dense ss ++ [e]
     ∧ components ss' = components ss ++ [length h]
     ∧ (∀ p v, h !! p = Some v → h' !! p = Some v)
     ∧ (∀ x, holds ss x →
          read ss' h' x = read ss h x ∧ ∃ v, read ss h x = Ok (Some v)))
  ∧ (∀ v : Goent → T,
       ∃ ss' h',
         emplace_all NewSparseSet [] (seqZ 0 300) v = Ok (ss', h')
         ∧ len (sparse NewSparseSet) = 256 ∧ len (sparse ss') = 512
         ∧ ∀ x, 0 ≤ x < 300 → read ss' h' x = Ok (Some (v x))).
Proof.
  split.
  - intros ss ss' h h' e c HI He Hge HE. pose proof HI as [Hwf Hal].
    destruct (Emplace_Ok_range ss h e c _ Hwf He HE) as [He' Hr].
    rewrite int_of_Goent_small in Hge by done.
    assert (¬ holds ss e) as Hn.
    { intros [i Hd]%list_elem_of_lookup.
      pose proof (wf_dense_lt ss Hwf i e Hd). lia. }
    destruct (Emplace_total ss h e c HI (proj1 He') Hr)
      as (ss2 & h2 & p & HE2 & _ & _ & _ & _ & Hfresh).
    rewrite HE in HE2. injection HE2 as <- <-.
    destruct (Hfresh Hn) as (-> & -> & _). simpl. split_and!; try done.
    + intros j Hj. rewrite list_lookup_insert_ne by (unfold len in Hge; lia).
      by apply grown_lookup_old.
    + intros p' v Hv. by apply lookup_app_l_Some.
    + intros x Hx. apply read_fresh_frame; [done | lia | done | done | done].
  - intros v.
    assert (∃ st, emplace_all NewSparseSet [] (seqZ 0 300) v = Ok st)
      as [[ss' h'] Hst].
    { eexists. vm_compute. reflexivity. }
    exists ss', h'. split; [done |].
    assert (len (sparse ss') = 512
            ∧ (λ x, read ss' h' x) <$> seqZ 0 300
              = (λ x, Ok (Some (v x))) <$> seqZ 0 300) as [Hlen Hall].
    { vm_compute in Hst. injection Hst as <- <-.
      split; vm_compute; reflexivity. }
    split_and!; [by vm_compute | done |].
    intros x Hx.
    assert (seqZ 0 300 !! Z.to_nat x = Some x) as Hl.
    { rewrite lookup_seqZ. lia. }
    apply (f_equal (λ l, l !! Z.to_nat x)) in Hall.
    rewrite !list_lookup_fmap, Hl in Hall. simpl in Hall.
    by injection Hall.
Qed.

Lemma C7_witness :
  ∃ ss' h',
    Emplace sample_set sample_heap 300 5 = Ok (ss', h')
    ∧ (∀ j, (j < length (sparse sample_set))%nat →
         sparse ss' !! j = sparse sample_set !! j)
    ∧ dense ss' = [3; 7; 9; 300]
    ∧ components ss' = [0; 1; 2; 3]%nat
    ∧ read ss' h' 7 = Ok (Some 70).
Proof.
  destruct (Emplace sample_set sample_heap 300 5) as [[ss' h'] |] eqn:HE;
    [| by vm_compute in HE].
  exists ss', h'. split; [done |].
  destruct (proj1 (@C7_growth_preserves_entries Z)
              sample_set ss' sample_heap h' 300 5)
    as (Hsp & Hd & Hc & Hh & Hr).
  - apply Inv_check_sound. vm_compute. reflexivity.
  - unfold is_Goent, uint64_mod. lia.
  - vm_compute. discriminate.
  - exact HE.
  - split_and!; [exact Hsp | exact Hd | exact Hc |].
    destruct (Hr 7) as [-> _]; [| by vm_compute].
    apply (bool_decide_unpack _). vm_compute. exact I.
Defined.

Lemma read_Some_inv {T} (ss : SparseSet) (h : list T) (e : Goent) (v : T) :
  read ss h e = Ok (Some v) → ∃ p, Get ss e = Ok (Some p) ∧ h !! p = Some v.
Proof.
  unfold read. destruct (Get ss e) as [[p |] |]; simpl; try done.
  destruct (h !! p) as [v' |] eqn:Hp; [| done].
  intros [= <-]. by exists p.
Qed.

Lemma read_None_inv {T} (ss : SparseSet) (h : list T) (e : Goent) :
  read ss h e = Ok None → Get ss e = Ok None.
Proof.
  unfold read. destruct (Get ss e) as [[p |] |]; simpl; try done.
  by destruct (h !! p).
Qed.




(** * The registry *)

Lemma reg_Inv_wf {T} (r : Registry) (h : list T) : reg_Inv r h → reg_wf r.
Proof. intros HI k ss Hk. by destruct (HI k ss Hk). Qed.

Lemma reg_Inv_NewRegistry {T} (h : list T) : reg_Inv NewRegistry h.
Proof. intros k ss Hk. unfold NewRegistry in Hk. by rewrite lookup_empty in Hk. Qed.

Lemma Inv_heap_mono {T} (ss : SparseSet) (h h' : list T) :
  Inv ss h → (length h ≤ length h')%nat → Inv ss h'.
Proof.
  intros [Hwf Hal] Hle. split; [done |].
  intros p Hp. specialize (Hal p Hp). lia.
Qed.

Lemma Emplace_heap_length {T} (ss ss' : SparseSet) (h h' : list T)
    (e : Goent) (c : T) :
  Inv ss h → is_Goent e → Emplace ss h e c = Ok (ss', h') →
  (length h ≤ length h')%nat.
Proof.
  intros HI He HE.
  destruct (Emplace_Ok_range ss h e c _ (proj1 HI) He HE) as [He' Hr].
  destruct (Emplace_total ss h e c HI (proj1 He') Hr)
    as (ss2 & h2 & p & HE2 & _ & _ & _ & Hold & Hnew).
  rewrite HE in HE2. injection HE2 as <- <-.
  destruct (decide (holds ss e)) as [Hh | Hn].
  - destruct (Hold Hh) as [_ ->]. unfold store. by rewrite length_insert.
  - destruct (Hnew Hn) as (_ & -> & _). rewrite length_app. lia.
Qed.

(** The registry operations keep the registry invariant. *)
Lemma EmplaceComponent_reg_Inv {T} (r r' : Registry) (h h' : list T)
    (k : gotype) (e : Goent) (c : T) :
  reg_Inv r h → is_Goent e →
  EmplaceComponent r h k e c = Ok (r', h') → reg_Inv r' h'.
Proof.
  intros HI He HE. unfold EmplaceComponent in HE.
  apply bind_Ok in HE as ([ss' h2] & HE & [= <- <-]).
  assert (Inv (match r !! k with Some s => s | None => NewSparseSet end) h)
    as HIk.
  { destruct (r !! k) as [s |] eqn:Hk; [by apply (HI k) |].
    apply Inv_NewSparseSet. }
  intros k' s Hk'. apply lookup_insert_Some in Hk' as [[<- <-] | [Hne Hk']].
  - by eapply Emplace_Inv.
  - eapply Inv_heap_mono; [by apply (HI k') |].
    by eapply Emplace_heap_length.
Qed.

Lemma RemoveComponent_reg_Inv {T} (r r' : Registry) (h : list T)
    (k : gotype) (e : Goent) :
  reg_Inv r h → is_Goent e → RemoveComponent r k e = Ok r' → reg_Inv r' h.
Proof.
  intros HI He HR. unfold RemoveComponent in HR.
  destruct (r !! k) as [s |] eqn:Hk; [| by injection HR as <-].
  apply bind_Ok in HR as (s' & HR & [= <-]).
  intros k' s2 Hk'. apply lookup_insert_Some in Hk' as [[<- <-] | [Hne Hk']].
  - eapply Remove_Inv; [by apply (HI k) | done | done].
  - by apply (HI k').
Qed.

Lemma RegisterComponent_reg_Inv {T} (r : Registry) (h : list T) (k : gotype) :
  reg_Inv r h → reg_Inv (RegisterComponent r k).1 h.
Proof.
  intros HI k' s Hk'. simpl in Hk'.
  apply lookup_insert_Some in Hk' as [[<- <-] | [Hne Hk']].
  - apply Inv_NewSparseSet.
  - by apply (HI k').
Qed.

Lemma RemoveComponent_absent (r : Registry) (k : gotype) (e : Goent) :
  reg_wf r → 0 ≤ e < 2 ^ 63 → ¬ reg_holds r k e →
  RemoveComponent r k e = Ok r.
Proof.
  intros Hwf He Hn. unfold RemoveComponent.
  destruct (r !! k) as [s |] eqn:Hk; [| done].
  rewrite Remove_noop.
  - simpl. by rewrite insert_id.
  - apply Get_absent; [by apply (Hwf k) | done |].
    intros Hh. apply Hn. by exists s.
Qed.




(** C5, on the code: after a component of type [A] was emplaced on entity
    0, [RegisterComponent] for [A] replaces the set by a new empty one, and
    the component is no longer found. *)
Lemma C5_register_replaces_set :
  ∃ r h,
    EmplaceComponent NewRegistry ([] : list Z) (TNamed 0) 0 5 = Ok (r, h)
    ∧ GetComponent r (TNamed 0) 0 = Ok (Some 0%nat)
    ∧ h !! 0%nat = Some 5
    ∧ (RegisterComponent r (TNamed 0)).1 !! TNamed 0 = Some NewSparseSet
    ∧ GetComponent (RegisterComponent r (TNamed 0)).1 (TNamed 0) 0 = Ok None.
Proof.
  eexists _, _. split_and!.
  - vm_compute. reflexivity.
  - vm_compute. reflexivity.
  - vm_compute. reflexivity.
  - vm_compute. reflexivity.
  - vm_compute. reflexivity.
Qed.

(** * Iteration *)

Lemma iterateDense_calls {W} (sets : list SparseSet)
    (g : Goent → list loc → W → W) (body : Goent → W → result W)
    (base : list Goent) :
  (∀ e, e ∈ base → ∀ w,
     body e w = Ok (match get_all sets e with
                    | Some ps => g e ps w
                    | None => w
                    end)) →
  ∀ w, iterateDense base body w = Ok (run_calls g (calls sets base) w).
Proof.
  induction base as [| e base IH]; intros Hb w; [done |].
  simpl. rewrite Hb by left. simpl.
  assert (∀ e', e' ∈ base → ∀ w', body e' w'
            = Ok (match get_all sets e' with
                  | Some ps => g e' ps w'
                  | None => w'
                  end)) as Hb' by (intros e' He'; apply Hb; by right).
  rewrite (IH Hb'). unfold calls, run_calls. simpl.
  by destruct (get_all sets e).
Qed.

Lemma get_all_Some (sets : list SparseSet) (e : Goent) (ps : list loc) :
  get_all sets e = Some ps →
  Forall2 (λ s p, Get s e = Ok (Some p)) sets ps.
Proof.
  revert ps. induction sets as [| s sets IH]; intros ps; simpl.
  - intros [= <-]. constructor.
  - destruct (Get s e) as [[p |] |] eqn:HG; try done.
    destruct (get_all sets e) as [ps' |]; [| done].
    intros [= <-]. constructor; [done | by apply IH].
Qed.

Lemma get_all_is_Some (sets : list SparseSet) (e : Goent) :
  Forall wf sets → 0 ≤ e < 2 ^ 63 →
  is_Some (get_all sets e) ↔ Forall (λ s, holds s e) sets.
Proof.
  intros Hwf He. induction Hwf as [| s sets Hs Hwf IH]; simpl.
  - split; [constructor | by eexists].
  - destruct (Get_total s Hs e He) as (o & -> & Ho).
    rewrite Forall_cons, <- IH, <- Ho.
    destruct o as [p |]; split.
    + intros Hall. split; [by eexists |].
      destruct (get_all sets e); [by eexists | by destruct Hall].
    + intros [_ [ps ->]]. by eexists.
    + by intros [? ?].
    + by intros [[? ?] _].
Qed.

Lemma elem_of_calls (sets : list SparseSet) (base : list Goent)
    (e : Goent) (ps : list loc) :
  (e, ps) ∈ calls sets base ↔ e ∈ base ∧ get_all sets e = Some ps.
Proof.
  unfold calls. rewrite list_elem_of_omap. split.
  - intros (e' & He' & Heq). destruct (get_all sets e') as [ps' |] eqn:Hg;
      [| done]. injection Heq as <- <-. done.
  - intros [He Hg]. exists e. split; [done |]. by rewrite Hg.
Qed.

Lemma calls_fst (sets : list SparseSet) (base : list Goent) :
  (calls sets base).*1 = filter (λ e, is_Some (get_all sets e)) base.
Proof.
  unfold calls. induction base as [| e base IH]; [done |].
  rewrite filter_cons. cbn [omap list_omap].
  destruct (get_all sets e) as [ps |] eqn:Hg.
  - rewrite decide_True by (by eexists). cbn. by rewrite IH.
  - rewrite decide_False by (by intros [? ?]). cbn. done.
Qed.

(** The calls of an iteration driven by the dense sequence of one of the
    sets. *)
Lemma calls_spec (sets : list SparseSet) (s0 : SparseSet) :
  Forall wf sets → s0 ∈ sets →
  NoDup (calls sets (dense s0)).*1
  ∧ (∀ e, e ∈ (calls sets (dense s0)).*1 ↔ Forall (λ s, holds s e) sets)
  ∧ (∀ e ps, (e, ps) ∈ calls sets (dense s0) →
       Forall2 (λ s p, Get s e = Ok (Some p)) sets ps).
Proof.
  intros Hwf Hs0.
  assert (wf s0) as Hwf0 by (rewrite Forall_forall in Hwf; by apply Hwf).
  rewrite calls_fst. split_and!.
  - apply NoDup_filter. by apply wf_NoDup_dense.
  - intros e. rewrite list_elem_of_filter. split.
    + intros [Hsome [i Hd]%list_elem_of_lookup].
      destruct (wf_dense s0 Hwf0 i e Hd) as [He _].
      by apply get_all_is_Some.
    + intros Hall.
      assert (holds s0 e) as Hh by (rewrite Forall_forall in Hall; by apply Hall).
      split; [| done].
      destruct (proj1 (list_elem_of_lookup _ _) Hh) as [i Hd].
      destruct (wf_dense s0 Hwf0 i e Hd) as [He _].
      by apply get_all_is_Some.
  - intros e ps [_ Hg]%elem_of_calls. by apply get_all_Some.
Qed.

Lemma reg_holds_lookup (r : Registry) (k : gotype) (s : SparseSet) (e : Goent) :
  r !! k = Some s → reg_holds r k e ↔ holds s e.
Proof.
  intros Hk. unfold reg_holds. split.
  - intros (s' & Hk' & Hh). rewrite Hk in Hk'. by injection Hk' as <-.
  - intros Hh. by exists s.
Qed.

Lemma Forall2_lookup_wf (r : Registry) (keys : list gotype)
    (sets : list SparseSet) :
  reg_wf r → Forall2 (λ k s, r !! k = Some s) keys sets → Forall wf sets.
Proof.
  intros Hr Hks. induction Hks as [| k s keys sets Hk _ IH]; constructor;
    [by apply (Hr k) | done].
Qed.

(** The same, read in the registry. *)
Lemma visits_exactly_calls (r : Registry) (keys : list gotype)
    (sets : list SparseSet) (s0 : SparseSet) :
  reg_wf r → Forall2 (λ k s, r !! k = Some s) keys sets → s0 ∈ sets →
  visits_exactly r keys (calls sets (dense s0)).
Proof.
  intros Hr Hks Hs0.
  pose proof (Forall2_lookup_wf r keys sets Hr Hks) as Hwf.
  destruct (calls_spec sets s0 Hwf Hs0) as (Hnd & Hin & Hps).
  split_and!; [done | |].
  - intros e. rewrite Hin. clear -Hks.
    induction Hks as [| k s keys sets Hk _ IH]; [done |].
    by rewrite !Forall_cons, IH, (reg_holds_lookup r k s e Hk).
  - intros e ps Hc. specialize (Hps e ps Hc). clear -Hks Hps.
    revert ps Hps. induction Hks as [| k s keys sets Hk _ IH];
      intros ps Hps; inversion Hps; subst; constructor.
    + unfold GetComponent. by rewrite Hk.
    + by apply IH.
Qed.

Lemma visits_exactly_missing (r : Registry) (keys : list gotype) (k : gotype) :
  k ∈ keys → r !! k = None → visits_exactly r keys [].
Proof.
  intros Hk Hnone. split_and!.
  - constructor.
  - intros e. split; [by intros ?%elem_of_nil |].
    intros Hall. rewrite Forall_forall in Hall.
    destruct (Hall k Hk) as (s & Hs & _). by rewrite Hnone in Hs.
  - by intros e ps ?%elem_of_nil.
Qed.

(** Under the invariant, the lookups of one step of an iteration do not
    panic on an entity taken from a dense sequence. *)
Lemma Get_dense_total (s0 s : SparseSet) (e : Goent) :
  wf s0 → wf s → e ∈ dense s0 →
  ∃ o, Get s e = Ok o.
Proof.
  intros Hwf0 Hwf [i Hd]%list_elem_of_lookup.
  destruct (wf_dense s0 Hwf0 i e Hd) as [He _].
  destruct (Get_total s Hwf e He) as (o & HG & _). by exists o.
Qed.

(** One step of a typed iteration: every [Get] on an entity of the driving
    sequence returns; [get_ok] replaces it by its result. *)
Ltac get_ok s0 s e He :=
  let o := fresh "o" in
  let HG := fresh "HG" in
  destruct (Get_dense_total s0 s e) as [o HG];
  [done | done | exact He |];
  rewrite !HG; clear HG; revert o.

Lemma Iterate2_body {W} (s0 s1 s2 : SparseSet)
    (f : Goent → loc → loc → W → W) (w : W) :
  wf s0 → wf s1 → wf s2 →
  iterateDense (dense s0) (λ entity w,
      c1 ← Get s1 entity;
      c2 ← Get s2 entity;
      match c1, c2 with
      | Some p1, Some p2 => Ok (f entity p1 p2 w)
      | _, _ => Ok w
      end) w
  = Ok (run_calls (visit2 f) (calls [s1; s2] (dense s0)) w).
Proof.
  intros Hw0 Hw1 Hw2. apply iterateDense_calls. intros e He w'.
  cbn [get_all]. get_ok s0 s1 e He. get_ok s0 s2 e He.
  intros [p2 |] [p1 |]; reflexivity.
Qed.

Lemma Iterate3_body {W} (s0 s1 s2 s3 : SparseSet)
    (f : Goent → loc → loc → loc → W → W) (w : W) :
  wf s0 → wf s1 → wf s2 → wf s3 →
  iterateDense (dense s0) (λ entity w,
      c1 ← Get s1 entity;
      c2 ← Get s2 entity;
      c3 ← Get s3 entity;
      match c1, c2, c3 with
      | Some p1, Some p2, Some p3 => Ok (f entity p1 p2 p3 w)
      | _, _, _ => Ok w
      end) w
  = Ok (run_calls (visit3 f) (calls [s1; s2; s3] (dense s0)) w).
Proof.
  intros Hw0 Hw1 Hw2 Hw3. apply iterateDense_calls. intros e He w'.
  cbn [get_all]. get_ok s0 s1 e He. get_ok s0 s2 e He. get_ok s0 s3 e He.
  intros [p3 |] [p2 |] [p1 |]; reflexivity.
Qed.

Lemma Iterate4_body {W} (s0 s1 s2 s3 s4 : SparseSet)
    (f : Goent → loc → loc → loc → loc → W → W) (w : W) :
  wf s0 → wf s1 → wf s2 → wf s3 → wf s4 →
  iterateDense (dense s0) (λ entity w,
      c1 ← Get s1 entity;
      c2 ← Get s2 entity;
      c3 ← Get s3 entity;
      c4 ← Get s4 entity;
      match c1, c2, c3, c4 with
      | Some p1, Some p2, Some p3, Some p4 => Ok (f entity p1 p2 p3 p4 w)
      | _, _, _, _ => Ok w
      end) w
  = Ok (run_calls (visit4 f) (calls [s1; s2; s3; s4] (dense s0)) w).
Proof.
  intros Hw0 Hw1 Hw2 Hw3 Hw4. apply iterateDense_calls. intros e He w'.
  cbn [get_all]. get_ok s0 s1 e He. get_ok s0 s2 e He.
  get_ok s0 s3 e He. get_ok s0 s4 e He.
  intros [p4 |] [p3 |] [p2 |] [p1 |]; reflexivity.
Qed.

Lemma dense_smaller (s' s : SparseSet) :
  (if bool_decide (len (dense s') < len (dense s)) then dense s' else dense s)
  = dense (smaller s' s).
Proof. unfold smaller. by case_bool_decide. Qed.

Lemma smaller_cases (s' s : SparseSet) : smaller s' s = s' ∨ smaller s' s = s.
Proof. unfold smaller. case_bool_decide; [by left | by right]. Qed.

Lemma wf_smaller (s' s : SparseSet) : wf s' → wf s → wf (smaller s' s).
Proof. intros H' H. by destruct (smaller_cases s' s) as [-> | ->]. Qed.

Lemma Iterate2_calls (r : Registry) (k1 k2 : gotype) (s1 s2 : SparseSet) :
  reg_wf r → r !! k1 = Some s1 → r !! k2 = Some s2 →
  smaller s2 s1 ∈ [s1; s2]
  ∧ ∀ W (f : Goent → loc → loc → W → W) (w : W),
      Iterate2 r k1 k2 f w
      = Ok (run_calls (visit2 f) (calls [s1; s2] (dense (smaller s2 s1))) w).
Proof.
  intros Hr Hk1 Hk2.
  pose proof (Hr k1 s1 Hk1) as Hw1. pose proof (Hr k2 s2 Hk2) as Hw2.
  split.
  - destruct (smaller_cases s2 s1) as [-> | ->]; set_solver.
  - intros W f w. unfold Iterate2, getStorage. rewrite Hk1, Hk2. cbv zeta.
    rewrite dense_smaller. apply Iterate2_body; [by apply wf_smaller | done | done].
Qed.

Lemma Iterate3_calls (r : Registry) (k1 k2 k3 : gotype) (s1 s2 s3 : SparseSet) :
  reg_wf r → r !! k1 = Some s1 → r !! k2 = Some s2 → r !! k3 = Some s3 →
  smaller s3 (smaller s2 s1) ∈ [s1; s2; s3]
  ∧ ∀ W (f : Goent → loc → loc → loc → W → W) (w : W),
      Iterate3 r k1 k2 k3 f w
      = Ok (run_calls (visit3 f)
              (calls [s1; s2; s3] (dense (smaller s3 (smaller s2 s1)))) w).
Proof.
  intros Hr Hk1 Hk2 Hk3.
  pose proof (Hr k1 s1 Hk1) as Hw1. pose proof (Hr k2 s2 Hk2) as Hw2.
  pose proof (Hr k3 s3 Hk3) as Hw3.
  split.
  - destruct (smaller_cases s3 (smaller s2 s1)) as [-> | ->];
      [| destruct (smaller_cases s2 s1) as [-> | ->]]; set_solver.
  - intros W f w. unfold Iterate3, getStorage. rewrite Hk1, Hk2, Hk3. cbv zeta.
    rewrite !dense_smaller.
    apply Iterate3_body; [by repeat apply wf_smaller | done | done | done].
Qed.

Lemma Iterate4_calls (r : Registry) (k1 k2 k3 k4 : gotype)
    (s1 s2 s3 s4 : SparseSet) :
  reg_wf r → r !! k1 = Some s1 → r !! k2 = Some s2 → r !! k3 = Some s3 →
  r !! k4 = Some s4 →
  smaller s4 (smaller s3 (smaller s2 s1)) ∈ [s1; s2; s3; s4]
  ∧ ∀ W (f : Goent → loc → loc → loc → loc → W → W) (w : W),
      Iterate4 r k1 k2 k3 k4 f w
      = Ok (run_calls (visit4 f)
              (calls [s1; s2; s3; s4]
                 (dense (smaller s4 (smaller s3 (smaller s2 s1))))) w).
Proof.
  intros Hr Hk1 Hk2 Hk3 Hk4.
  pose proof (Hr k1 s1 Hk1) as Hw1. pose proof (Hr k2 s2 Hk2) as Hw2.
  pose proof (Hr k3 s3 Hk3) as Hw3. pose proof (Hr k4 s4 Hk4) as Hw4.
  split.
  - destruct (smaller_cases s4 (smaller s3 (smaller s2 s1))) as [-> | ->];
      [| destruct (smaller_cases s3 (smaller s2 s1)) as [-> | ->];
         [| destruct (smaller_cases s2 s1) as [-> | ->]]]; set_solver.
  - intros W f w. unfold Iterate4, getStorage.
    rewrite Hk1, Hk2, Hk3, Hk4. cbv zeta. rewrite !dense_smaller.
    apply Iterate4_body;
      [by repeat apply wf_smaller | done | done | done | done].
Qed.

Lemma Iterate2_visits (r : Registry) (k1 k2 : gotype) :
  reg_wf r →
  ∃ l, visits_exactly r [k1; k2] l
    ∧ ∀ W (f : Goent → loc → loc → W → W) (w : W),
        Iterate2 r k1 k2 f w = Ok (run_calls (visit2 f) l w).
Proof.
  intros Hr.
  destruct (r !! k1) as [s1 |] eqn:Hk1; cycle 1.
  { exists []. split; [apply (visits_exactly_missing r _ k1); set_solver |].
    intros W f w. unfold Iterate2, getStorage. by rewrite Hk1. }
  destruct (r !! k2) as [s2 |] eqn:Hk2; cycle 1.
  { exists []. split; [apply (visits_exactly_missing r _ k2); set_solver |].
    intros W f w. unfold Iterate2, getStorage. by rewrite Hk1, Hk2. }
  destruct (Iterate2_calls r k1 k2 s1 s2 Hr Hk1 Hk2) as [Hin Hit].
  eexists. split; [| exact Hit].
  apply visits_exactly_calls; [done | by repeat constructor | done].
Qed.

Lemma Iterate3_visits (r : Registry) (k1 k2 k3 : gotype) :
  reg_wf r →
  ∃ l, visits_exactly r [k1; k2; k3] l
    ∧ ∀ W (f : Goent → loc → loc → loc → W → W) (w : W),
        Iterate3 r k1 k2 k3 f w = Ok (run_calls (visit3 f) l w).
Proof.
  intros Hr.
  destruct (r !! k1) as [s1 |] eqn:Hk1; cycle 1.
  { exists []. split; [apply (visits_exactly_missing r _ k1); set_solver |].
    intros W f w. unfold Iterate3, getStorage. by rewrite Hk1. }
  destruct (r !! k2) as [s2 |] eqn:Hk2; cycle 1.
  { exists []. split; [apply (visits_exactly_missing r _ k2); set_solver |].
    intros W f w. unfold Iterate3, getStorage. by rewrite Hk1, Hk2. }
  destruct (r !! k3) as [s3 |] eqn:Hk3; cycle 1.
  { exists []. split; [apply (visits_exactly_missing r _ k3); set_solver |].
    intros W f w. unfold Iterate3, getStorage. by rewrite Hk1, Hk2, Hk3. }
  destruct (Iterate3_calls r k1 k2 k3 s1 s2 s3 Hr Hk1 Hk2 Hk3) as [Hin Hit].
  eexists. split; [| exact Hit].
  apply visits_exactly_calls; [done | by repeat constructor | done].
Qed.

Lemma Iterate4_visits (r : Registry) (k1 k2 k3 k4 : gotype) :
  reg_wf r →
  ∃ l, visits_exactly r [k1; k2; k3; k4] l
    ∧ ∀ W (f : Goent → loc → loc → loc → loc → W → W) (w : W),
        Iterate4 r k1 k2 k3 k4 f w = Ok (run_calls (visit4 f) l w).
Proof.
  intros Hr.
  destruct (r !! k1) as [s1 |] eqn:Hk1; cycle 1.
  { exists []. split; [apply (visits_exactly_missing r _ k1); set_solver |].
    intros W f w. unfold Iterate4, getStorage. by rewrite Hk1. }
  destruct (r !! k2) as [s2 |] eqn:Hk2; cycle 1.
  { exists []. split; [apply (visits_exactly_missing r _ k2); set_solver |].
    intros W f w. unfold Iterate4, getStorage. by rewrite Hk1, Hk2. }
  destruct (r !! k3) as [s3 |] eqn:Hk3; cycle 1.
  { exists []. split; [apply (visits_exactly_missing r _ k3); set_solver |].
    intros W f w. unfold Iterate4, getStorage. by rewrite Hk1, Hk2, Hk3. }
  destruct (r !! k4) as [s4 |] eqn:Hk4; cycle 1.
  { exists []. split; [apply (visits_exactly_missing r _ k4); set_solver |].
    intros W f w. unfold Iterate4, getStorage. by rewrite Hk1, Hk2, Hk3, Hk4. }
  destruct (Iterate4_calls r k1 k2 k3 k4 s1 s2 s3 s4 Hr Hk1 Hk2 Hk3 Hk4)
    as [Hin Hit].
  eexists. split; [| exact Hit].
  apply visits_exactly_calls; [done | by repeat constructor | done].
Qed.

(** C1: in every well-formed registry (every registry the operations build
    is one, see [EmplaceComponent_reg_Inv], [RemoveComponent_reg_Inv] and
    [RegisterComponent_reg_Inv]), each of [Iterate2], [Iterate3] and
    [Iterate4] returns, and what it does to the caller's state is the
    visitor applied, in order, along a list of calls that has no entity
    twice, whose entities are exactly those that hold a component of every
    requested type, and whose pointers are the slots [GetComponent] finds;
    this holds for every choice of the types, so whichever set is the
    smallest.  In particular, with [A] on the entities 0, 2, 4, 6, 8 and
    [B] on 0, 1, 2, 3, [Iterate2] over [(A, B)], and over [(B, A)], calls
    the visitor on 0 and on 2, once each, with their components. *)
Theorem C1_iterate_visits_exactly :
  (∀ r : Registry, reg_wf r →
     (∀ k1 k2, ∃ l, visits_exactly r [k1; k2] l
        ∧ ∀ W (f : Goent → loc → loc → W → W) (w : W),
            Iterate2 r k1 k2 f w = Ok (run_calls (visit2 f) l w))
     ∧ (∀ k1 k2 k3, ∃ l, visits_exactly r [k1; k2; k3] l
        ∧ ∀ W (f : Goent → loc → loc → loc → W → W) (w : W),
            Iterate3 r k1 k2 k3 f w = Ok (run_calls (visit3 f) l w))
     ∧ (∀ k1 k2 k3 k4, ∃ l, visits_exactly r [k1; k2; k3; k4] l
        ∧ ∀ W (f : Goent → loc → loc → loc → loc → W → W) (w : W),
            Iterate4 r k1 k2 k3 k4 f w = Ok (run_calls (visit4 f) l w)))
  ∧ (∀ (T : Type) (a b : Goent → T),
       ∃ r h,
         scenario_AB (TNamed 0) (TNamed 1) a b = Ok (r, h)
         ∧ Iterate2 r (TNamed 0) (TNamed 1)
             (λ e p1 p2 log, log ++ [(e, h !! p1, h !! p2)]) []
           = Ok [(0, Some (a 0), Some (b 0)); (2, Some (a 2), Some (b 2))]
         ∧ Iterate2 r (TNamed 1) (TNamed 0)
             (λ e p1 p2 log, log ++ [(e, h !! p1, h !! p2)]) []
           = Ok [(0, Some (b 0), Some (a 0)); (2, Some (b 2), Some (a 2))]).
Proof.
  split.
  - intros r Hr. split_and!.
    + intros k1 k2. by apply Iterate2_visits.
    + intros k1 k2 k3. by apply Iterate3_visits.
    + intros k1 k2 k3 k4. by apply Iterate4_visits.
  - intros T a b. eexists _, _. split_and!.
    + vm_compute. reflexivity.
    + vm_compute. reflexivity.
    + vm_compute. reflexivity.
Qed.

Lemma C1_witness :
  ∃ l, visits_exactly sample_registry [TNamed 0; TNamed 1] l
    ∧ ∀ W (f : Goent → loc → loc → W → W) (w : W),
        Iterate2 sample_registry (TNamed 0) (TNamed 1) f w
        = Ok (run_calls (visit2 f) l w).
Proof.
  destruct (proj1 C1_iterate_visits_exactly sample_registry) as (H2 & _ & _).
  - apply reg_wf_check_sound. vm_compute. reflexivity.
  - apply (H2 (TNamed 0) (TNamed 1)).
Defined.

(** ** Reflective iteration *)

Lemma resolve_storages_None (r : Registry) (params : list gotype) :
  resolve_storages r params = None
  ↔ Exists (λ t, r !! param_key t = None) params.
Proof.
  induction params as [| t params IH]; simpl.
  - split; [done | by intros ?%Exists_nil].
  - rewrite Exists_cons, <- IH. unfold param_key.
    destruct (r !! (if is_ptr t then Elem t else t)) as [s |].
    + destruct (resolve_storages r params); split; try done.
      * by intros [? | ?].
      * intros _. by right.
    + split; [intros _; by left | done].
Qed.

Lemma resolve_storages_Some (r : Registry) (params : list gotype)
    (storages : list (gotype * SparseSet)) :
  resolve_storages r params = Some storages →
  storages.*1 = param_key <$> params
  ∧ Forall2 (λ k s, r !! k = Some s) storages.*1 storages.*2.
Proof.
  revert storages. induction params as [| t params IH]; intros storages; simpl.
  - intros [= <-]. split; [done | constructor].
  - fold (param_key t).
    destruct (r !! param_key t) as [s |] eqn:Hk; [| done].
    destruct (resolve_storages r params) as [sts |]; [| done].
    intros [= <-]. destruct (IH sts eq_refl) as [Hkeys Hall].
    split; [| by constructor].
    change (param_key t :: sts.*1 = param_key t :: (param_key <$> params)).
    by rewrite Hkeys.
Qed.

Lemma pick_base_lt (rest : list (gotype * SparseSet)) (i b : nat) (m : Z) :
  (b < i)%nat → (pick_base rest i b m < i + length rest)%nat.
Proof.
  revert i b m. induction rest as [| [k s] rest IH]; intros i b m Hb; simpl.
  - lia.
  - case_bool_decide.
    + specialize (IH (S i) i (len (GetDense s)) ltac:(lia)). lia.
    + specialize (IH (S i) b m ltac:(lia)). lia.
Qed.

Lemma gather_args_spec (storages : list (gotype * SparseSet)) (e : Goent) :
  Forall wf storages.*2 → 0 ≤ e < 2 ^ 63 →
  gather_args storages e
  = Ok (zip (TPtr <$> storages.*1) <$> get_all storages.*2 e).
Proof.
  intros Hwf He. induction storages as [| [k s] storages IH]; [done |].
  rewrite !fmap_cons in *. apply Forall_cons in Hwf as [Hs Hwf].
  cbn [gather_args get_all fst snd]. unfold SparseSet_GetComponent.
  destruct (Get_total s Hs e He) as (o & -> & _). rewrite bind_Ok_l.
  destruct o as [p |]; [| done].
  rewrite (IH Hwf), bind_Ok_l.
  by destruct (get_all storages.*2 e).
Qed.

Lemma get_all_length (sets : list SparseSet) (e : Goent) (ps : list loc) :
  get_all sets e = Some ps → length ps = length sets.
Proof.
  intros H%get_all_Some. symmetry. by eapply Forall2_length.
Qed.

Lemma ptr_params (params : list gotype) :
  forallb is_ptr params = true → TPtr <$> (param_key <$> params) = params.
Proof.
  induction params as [| t params IH]; [done |]. cbn [forallb].
  intros [Ht Hp]%andb_true_iff. rewrite !fmap_cons, (IH Hp).
  by destruct t.
Qed.

(** With pointer parameters only, [reflect.Value.Call] accepts the
    arguments gathered for an entity. *)
Lemma reflect_Call_ptrs {W} (params : list gotype)
    (body : Goent → list loc → W → W) (e : Goent) (ps : list loc) (w : W) :
  forallb is_ptr params = true → length ps = length params →
  reflect_Call (TGoent :: params) body e
    (zip (TPtr <$> (param_key <$> params)) ps) w
  = Ok (body e ps w).
Proof.
  intros Hp Hlen. unfold reflect_Call.
  rewrite fst_zip by (rewrite !length_fmap; lia).
  rewrite snd_zip by (rewrite !length_fmap; lia).
  rewrite (ptr_params params Hp).
  by rewrite bool_decide_eq_true_2.
Qed.

(** The reflective iteration over pointer parameters whose storages all
    exist, driven by the set [sb] that lines 208-217 pick. *)
Lemma IterateReflective_calls (r : Registry) (params : list gotype)
    (k0 kb : gotype) (s0 sb : SparseSet) (rest : list (gotype * SparseSet)) :
  reg_wf r → forallb is_ptr params = true →
  resolve_storages r params = Some ((k0, s0) :: rest) →
  ((k0, s0) :: rest) !! pick_base rest 1 0 (len (GetDense s0)) = Some (kb, sb) →
  ∀ W (body : Goent → list loc → W → W) (w : W),
    IterateReflective r (VFunc (TGoent :: params) body) w
    = Ok (run_calls body (calls (s0 :: rest.*2) (dense sb)) w).
Proof.
  intros Hr Hp Hres Hbase W body w.
  destruct (resolve_storages_Some r params _ Hres) as [Hkeys Hall].
  assert (Forall wf (s0 :: rest.*2)) as Hwf
    by exact (Forall2_lookup_wf r _ _ Hr Hall).
  assert (wf sb) as Hwb.
  { rewrite Forall_forall in Hwf. apply Hwf.
    change (sb ∈ ((k0, s0) :: rest).*2).
    apply list_elem_of_fmap. exists (kb, sb). split; [done |].
    by eapply list_elem_of_lookup_2. }
  assert (params ≠ []) as Hne by (by intros ->).
  unfold IterateReflective.
  rewrite bool_decide_eq_false_2 by (unfold len; simpl; lia).
  rewrite bool_decide_eq_true_2 by done. simpl negb. cbv iota. simpl orb.
  cbv iota zeta.
  rewrite bool_decide_eq_false_2
    by (unfold len; destruct params; [done | simpl; lia]).
  change (drop 1 (TGoent :: params)) with params.
  rewrite Hres, Hbase.
  apply iterateDense_calls. intros e [i Hd]%list_elem_of_lookup w'.
  destruct (wf_dense sb Hwb i e Hd) as [He _].
  rewrite (gather_args_spec ((k0, s0) :: rest) e Hwf He), bind_Ok_l.
  change (get_all (s0 :: rest.*2) e) with (get_all ((k0, s0) :: rest).*2 e).
  destruct (get_all ((k0, s0) :: rest).*2 e) as [ps |] eqn:Hg;
    [| reflexivity].
  change (reflect_Call (TGoent :: params) body e
            (zip (TPtr <$> ((k0, s0) :: rest).*1) ps) w'
          = Ok (body e ps w')).
  rewrite Hkeys. apply reflect_Call_ptrs; [done |].
  rewrite (get_all_length _ _ _ Hg), <- (length_fmap param_key params).
  by rewrite <- Hkeys, !length_fmap.
Qed.

Lemma IterateReflective_malformed {W} (r : Registry) (ins : list gotype)
    (body : Goent → list loc → W → W) (w : W) :
  ins !! 0%nat ≠ Some TGoent ∨ (length ins ≤ 1)%nat →
  IterateReflective r (VFunc ins body) w = Panic.
Proof.
  intros Hbad. unfold IterateReflective.
  destruct (bool_decide (len ins < 1)
            || negb (bool_decide (ins !! 0%nat = Some TGoent))) eqn:Hv;
    [done |].
  apply orb_false_iff in Hv as [Hlen Hfst].
  apply negb_false_iff, bool_decide_eq_true in Hfst.
  destruct Hbad as [Hbad | Hbad]; [done |].
  cbv zeta. rewrite bool_decide_eq_true_2; [done |].
  apply bool_decide_eq_false in Hlen. unfold len in *. lia.
Qed.

Lemma IterateReflective_missing {W} (r : Registry) (params : list gotype)
    (body : Goent → list loc → W → W) (w : W) :
  params ≠ [] → resolve_storages r params = None →
  IterateReflective r (VFunc (TGoent :: params) body) w = Ok w.
Proof.
  intros Hne Hres. unfold IterateReflective.
  rewrite bool_decide_eq_false_2 by (unfold len; simpl; lia).
  rewrite bool_decide_eq_true_2 by done. simpl negb. cbv iota. simpl orb.
  cbv iota zeta.
  rewrite bool_decide_eq_false_2
    by (unfold len; destruct params; [done | simpl; lia]).
  change (drop 1 (TGoent :: params)) with params.
  by rewrite Hres.
Qed.

Lemma IterateReflective_total {W} (r : Registry) (params : list gotype)
    (body : Goent → list loc → W → W) (w : W) :
  reg_wf r → params ≠ [] → forallb is_ptr params = true →
  ∃ w', IterateReflective r (VFunc (TGoent :: params) body) w = Ok w'.
Proof.
  intros Hr Hne Hp.
  destruct (resolve_storages r params) as [storages |] eqn:Hres; cycle 1.
  { exists w. by apply IterateReflective_missing. }
  destruct storages as [| [k0 s0] rest].
  { destruct (resolve_storages_Some r params [] Hres) as [Hkeys _].
    destruct params; [done | discriminate Hkeys]. }
  destruct (lookup_lt_is_Some_2 ((k0, s0) :: rest)
              (pick_base rest 1 0 (len (GetDense s0)))) as [[kb sb] Hbase].
  { pose proof (pick_base_lt rest 1 0 (len (GetDense s0)) ltac:(lia)).
    simpl. lia. }
  eexists. by eapply IterateReflective_calls.
Qed.

(** C2: in every well-formed registry, for every visitor of the shape
    [(Goent, *A, *B)] acting on any caller state, [IterateReflective] and
    [Iterate2[A, B]] both return, with the same final state: the same
    entities are visited in the same order with the same pointers, so a
    visitor that records its calls records the same calls, and one that
    mutates the components leaves the same heap. *)
Theorem C2_reflective_matches_Iterate2 (r : Registry) (k1 k2 : gotype) :
  reg_wf r →
  ∀ W (f : Goent → loc → loc → W → W) (w : W),
    ∃ w', Iterate2 r k1 k2 f w = Ok w'
      ∧ IterateReflective r (VFunc [TGoent; TPtr k1; TPtr k2] (visit2 f)) w
        = Ok w'.
Proof.
  intros Hr W f w.
  destruct (r !! k1) as [s1 |] eqn:Hk1; cycle 1.
  { exists w. split.
    - unfold Iterate2, getStorage. by rewrite Hk1.
    - apply IterateReflective_missing; [done |].
      cbn [resolve_storages is_ptr Elem]. by rewrite Hk1. }
  destruct (r !! k2) as [s2 |] eqn:Hk2; cycle 1.
  { exists w. split.
    - unfold Iterate2, getStorage. by rewrite Hk1, Hk2.
    - apply IterateReflective_missing; [done |].
      cbn [resolve_storages is_ptr Elem]. by rewrite Hk1, Hk2. }
  destruct (Iterate2_calls r k1 k2 s1 s2 Hr Hk1 Hk2) as [_ Hit].
  eexists. split; [apply Hit |].
  apply (IterateReflective_calls r [TPtr k1; TPtr k2] k1
           (if bool_decide (len (dense s2) < len (dense s1)) then k2 else k1)
           s1 (smaller s2 s1) [(k2, s2)] Hr); [done | |].
  - cbn [resolve_storages is_ptr Elem]. by rewrite Hk1, Hk2.
  - cbn [pick_base]. unfold GetDense, smaller. by case_bool_decide.
Qed.

Lemma C2_witness :
  ∃ w', Iterate2 sample_registry (TNamed 0) (TNamed 1)
          (λ e _ _ (log : list Goent), log ++ [e]) [] = Ok w'
    ∧ IterateReflective sample_registry
        (VFunc [TGoent; TPtr (TNamed 0); TPtr (TNamed 1)]
               (visit2 (λ e _ _ (log : list Goent), log ++ [e]))) []
      = Ok w'.
Proof.
  apply (C2_reflective_matches_Iterate2 sample_registry (TNamed 0) (TNamed 1)).
  apply reg_wf_check_sound. vm_compute. reflexivity.
Defined.

(** C8, as amended: [IterateReflective] panics whenever the first
    parameter type of the visitor is not [Goent] or the visitor declares no
    component parameter (and on a value that is not a function); when the
    signature passes this check and some declared component type has no
    storage, the call returns at once, the visitor is never called and the
    caller's state is unchanged; and for visitors whose component
    parameters are all pointers, in a well-formed registry, the call
    returns in every other case, so that it panics exactly when the first
    parameter type is not [Goent] or there is no component parameter. *)
Theorem C8_reflective_signature_errors :
  (∀ W (r : Registry) ins (body : Goent → list loc → W → W) (w : W),
     ins !! 0%nat ≠ Some TGoent ∨ (length ins ≤ 1)%nat →
     IterateReflective r (VFunc ins body) w = Panic)
  ∧ (∀ W (r : Registry) (w : W), IterateReflective r VOther w = Panic)
  ∧ (∀ W (r : Registry) params (body : Goent → list loc → W → W) (w : W),
       params ≠ [] → Exists (λ t, r !! param_key t = None) params →
       IterateReflective r (VFunc (TGoent :: params) body) w = Ok w)
  ∧ (∀ W (r : Registry) params (body : Goent → list loc → W → W) (w : W),
       reg_wf r → params ≠ [] → forallb is_ptr params = true →
       ∃ w', IterateReflective r (VFunc (TGoent :: params) body) w = Ok w')
  ∧ (∀ W (r : Registry) ins (body : Goent → list loc → W → W) (w : W),
       reg_wf r → forallb is_ptr (drop 1 ins) = true →
       IterateReflective r (VFunc ins body) w = Panic
       ↔ ins !! 0%nat ≠ Some TGoent ∨ (length ins ≤ 1)%nat).
Proof.
  split_and!.
  - intros W r ins body w. apply IterateReflective_malformed.
  - done.
  - intros W r params body w Hne Hmiss.
    apply IterateReflective_missing; [done |].
    by apply resolve_storages_None.
  - intros W r params body w. apply IterateReflective_total.
  - intros W r ins body w Hr Hp. split; [| apply IterateReflective_malformed].
    intros Hpanic.
    destruct ins as [| t params]; [right; simpl; lia |].
    destruct (decide (t = TGoent)) as [-> | Hne]; [| left; simpl; congruence].
    destruct params as [| t' params']; [right; simpl; lia |].
    destruct (IterateReflective_total r (t' :: params') body w Hr) as [w' Hw'];
      [done | exact Hp |].
    rewrite Hw' in Hpanic. discriminate.
Qed.

Lemma C8_witness :
  ∃ w', IterateReflective sample_registry
          (VFunc [TGoent; TPtr (TNamed 0); TPtr (TNamed 1)]
                 (λ e _ (log : list Goent), log ++ [e])) [] = Ok w'.
Proof.
  destruct C8_reflective_signature_errors as (_ & _ & _ & Htotal & _).
  apply (Htotal (list Goent) sample_registry
           [TPtr (TNamed 0); TPtr (TNamed 1)]).
  - apply reg_wf_check_sound. vm_compute. reflexivity.
  - discriminate.
  - reflexivity.
Defined.

(** C8 fails as stated: a visitor [func(Goent, A)], whose first parameter
    is [Goent] and which declares one component parameter, of a type whose
    storage exists, makes the call panic in [fVal.Call] at the first entity
    holding [A], because the argument is a pointer and the parameter is
    not. *)
Lemma C8_counterexample :
  ∃ r h,
    EmplaceComponent NewRegistry ([] : list Z) (TNamed 0) 0 5 = Ok (r, h)
    ∧ [TGoent; TNamed 0] !! 0%nat = Some TGoent
    ∧ length (drop 1 [TGoent; TNamed 0]) = 1%nat
    ∧ resolve_storages r (drop 1 [TGoent; TNamed 0])
      = Some [(TNamed 0, {| dense := [0]; components := [0%nat];
                            sparse := <[0%nat := 0]>
                                        (replicate 256 invalidIndex) |})]
    ∧ IterateReflective r (VFunc [TGoent; TNamed 0] (λ _ _ (w : unit), w)) tt
      = Panic.
Proof.
  eexists _, _. split_and!.
  - vm_compute. reflexivity.
  - reflexivity.
  - reflexivity.
  - vm_compute. reflexivity.
  - vm_compute. reflexivity.
Qed.

(** * Further properties *)

(** ** Entity ids *)

Lemma wrap_uint64_small (z : Z) : 0 ≤ z < 2 ^ 64 → wrap_uint64 z = z.
Proof. intros Hz. unfold wrap_uint64, uint64_mod. by apply Z.mod_small. Qed.

(** X1: [n] successive calls of [CreateEntity], starting with the counter
    at [c] and not crossing [2^64], return the handles [c, c+1, ..., c+n-1]
    in this order, which are pairwise distinct 64-bit handles, and leave
    the counter at [c + n] reduced modulo [2^64]; at [2^64 - 1] the counter
    wraps to 0, so the handle 0 is handed out again. *)
Theorem CreateEntities_fresh (n : nat) (c : Goent) :
  0 ≤ c < 2 ^ 64 → c + Z.of_nat n ≤ 2 ^ 64 →
  CreateEntities n c = (seqZ c (Z.of_nat n), wrap_uint64 (c + Z.of_nat n))
  ∧ NoDup (CreateEntities n c).1
  ∧ Forall is_Goent (CreateEntities n c).1
  ∧ (CreateEntity (2 ^ 64 - 1)).2 = 0.
Proof.
  intros Hc Hn.
  assert (CreateEntities n c
          = (seqZ c (Z.of_nat n), wrap_uint64 (c + Z.of_nat n))) as Heq.
  { revert c Hc Hn. induction n as [| n IH]; intros c Hc Hn.
    - simpl. rewrite Z.add_0_r, wrap_uint64_small by lia. done.
    - cbn [CreateEntities CreateEntity].
      destruct (decide (c + 1 = 2 ^ 64)) as [Hlast | Hnot].
      + assert (n = 0%nat) as -> by lia.
        assert (c = 2 ^ 64 - 1) as -> by lia.
        vm_compute. reflexivity.
      + rewrite (wrap_uint64_small (c + 1)) by lia.
        rewrite (IH (c + 1)) by lia.
        rewrite (seqZ_cons c (Z.of_nat (S n))) by lia.
        replace (Z.succ c) with (c + 1) by lia.
        replace (Z.pred (Z.of_nat (S n))) with (Z.of_nat n) by lia.
        by replace (c + 1 + Z.of_nat n) with (c + Z.of_nat (S n)) by lia. }
  rewrite Heq. cbn [fst]. split_and!; [done | | | vm_compute; reflexivity].
  - apply NoDup_seqZ.
  - apply Forall_forall. intros x Hx%elem_of_seqZ.
    unfold is_Goent, uint64_mod. lia.
Qed.

Lemma CreateEntities_fresh_witness :
  CreateEntities 10 0 = (seqZ 0 10, wrap_uint64 (0 + 10))
  ∧ NoDup (CreateEntities 10 0).1
  ∧ Forall is_Goent (CreateEntities 10 0).1
  ∧ (CreateEntity (2 ^ 64 - 1)).2 = 0.
Proof. apply (CreateEntities_fresh 10 0); lia. Defined.

(** ** Capacity *)

(** X2: for [0 ≤ n ≤ 2^63 - 256], [nextAlignedCapacity n] is the least
    multiple of the alignment that is at least [n], and it is a fixed point
    of [nextAlignedCapacity]; for [2^63 - 256 < n < 2^63] the
    multiplication wraps and the result is negative. *)
Theorem nextAlignedCapacity_least (n : Z) :
  (0 ≤ n ≤ 2 ^ 63 - 256 →
     n ≤ nextAlignedCapacity n
     ∧ Z.rem (nextAlignedCapacity n) alignment = 0
     ∧ (∀ m, n ≤ m → Z.rem m alignment = 0 → nextAlignedCapacity n ≤ m)
     ∧ nextAlignedCapacity (nextAlignedCapacity n) = nextAlignedCapacity n)
  ∧ (2 ^ 63 - 256 < n < 2 ^ 63 → nextAlignedCapacity n < 0).
Proof.
  split; [| apply nextAlignedCapacity_overflow].
  intros Hn.
  destruct (nextAlignedCapacity_bounds n Hn) as ([Hle Hlt] & Hnear & Hrem).
  split_and!; try done.
  - intros m Hm Hmrem. unfold alignment in *.
    rewrite Z.rem_mod_nonneg in Hrem by lia.
    rewrite Z.rem_mod_nonneg in Hmrem by lia.
    apply Z.mod_divide in Hrem as [a Ha]; [| lia].
    apply Z.mod_divide in Hmrem as [b Hb]; [| lia].
    nia.
  - unfold nextAlignedCapacity at 1. by rewrite bool_decide_eq_true_2.
Qed.

Lemma nextAlignedCapacity_least_witness :
  300 ≤ nextAlignedCapacity 300
  ∧ Z.rem (nextAlignedCapacity 300) alignment = 0
  ∧ (∀ m, 300 ≤ m → Z.rem m alignment = 0 → nextAlignedCapacity 300 ≤ m)
  ∧ nextAlignedCapacity (nextAlignedCapacity 300) = nextAlignedCapacity 300.
Proof. apply (proj1 (nextAlignedCapacity_least 300)). lia. Defined.

(** ** Handles outside the index range *)

Lemma index_negative {A} (s : list A) (i : Z) : i < 0 → index s i = Panic.
Proof. intros Hi. unfold index. by rewrite bool_decide_eq_false_2 by lia. Qed.

Lemma Get_large (ss : SparseSet) (e : Goent) :
  2 ^ 63 ≤ e < 2 ^ 64 → Get ss e = Panic.
Proof.
  intros He. unfold Get. rewrite int_of_Goent_large by done.
  rewrite bool_decide_eq_false_2 by (unfold len; lia).
  by rewrite (index_negative (sparse ss)) by lia.
Qed.

Lemma Remove_large (ss : SparseSet) (e : Goent) :
  2 ^ 63 ≤ e < 2 ^ 64 → Remove ss e = Panic.
Proof.
  intros He. unfold Remove. rewrite int_of_Goent_large by done.
  rewrite bool_decide_eq_false_2 by (unfold len; lia).
  by rewrite (index_negative (sparse ss)) by lia.
Qed.

Lemma Emplace_large {T} (ss : SparseSet) (h : list T) (e : Goent) (c : T) :
  2 ^ 63 ≤ e < 2 ^ 64 → Emplace ss h e c = Panic.
Proof.
  intros He. unfold Emplace. rewrite int_of_Goent_large by done.
  rewrite bool_decide_eq_false_2 by (unfold len; lia).
  rewrite bind_Ok_l.
  by rewrite (index_negative (sparse ss)) by lia.
Qed.



(** ** Other entities are not disturbed *)

Lemma read_large {T} (ss : SparseSet) (h : list T) (e : Goent) :
  2 ^ 63 ≤ e < 2 ^ 64 → read ss h e = Panic.
Proof. intros He. unfold read. by rewrite Get_large. Qed.

Lemma Goent_large (x : Goent) : is_Goent x → ¬ 0 ≤ x < 2 ^ 63 → 2 ^ 63 ≤ x < 2 ^ 64.
Proof. unfold is_Goent, uint64_mod. lia. Qed.

(** Two entities of a well-formed set have different slots. *)
Lemma slots_distinct (ss : SparseSet) (x e : Goent) (q p : loc) :
  wf ss → is_Goent x → is_Goent e →
  Get ss x = Ok (Some q) → Get ss e = Ok (Some p) → x ≠ e → q ≠ p.
Proof.
  intros Hwf Hx He HGx HGe Hne ->.
  destruct (Get_Some_inv ss Hwf x p Hx HGx) as (i & Hdi & Hci).
  destruct (Get_Some_inv ss Hwf e p He HGe) as (j & Hdj & Hcj).
  pose proof (NoDup_lookup _ _ _ _ (wf_slots ss Hwf) Hci Hcj) as ->.
  rewrite Hdi in Hdj. by injection Hdj.
Qed.

Lemma Get_fresh_frame {T} (ss : SparseSet) (h : list T) (e x : Goent) (c : T) :
  Inv ss h → 0 ≤ e → (e < len (sparse ss) ∨ e + 256 < 2 ^ 63) →
  ¬ holds ss e → 0 ≤ x < 2 ^ 63 → x ≠ e →
  Get {| dense := dense ss ++ [e];
         components := components ss ++ [length h];
         sparse := <[Z.to_nat e := len (dense ss)]> (grown (sparse ss) e) |} x
  = Get ss x.
Proof.
  intros HI He Hr Hn Hx Hne. pose proof HI as [Hwf Hal].
  destruct (Inv_fresh ss h e c HI He Hr Hn) as [Hwf' _].
  destruct (decide (holds ss x)) as [Hh | Hnx].
  - destruct (proj1 (list_elem_of_lookup _ _) Hh) as [i Hd].
    destruct (Get_holds ss Hwf i x Hd) as (p & Hp & ->).
    destruct (Get_holds _ Hwf' i x) as (p' & Hp' & ->).
    { simpl. by apply lookup_app_l_Some. }
    simpl in Hp'. rewrite (lookup_app_l_Some _ _ _ _ Hp) in Hp'.
    by injection Hp' as <-.
  - rewrite (Get_absent ss Hwf x Hx Hnx).
    apply (Get_absent _ Hwf' x Hx). unfold holds. simpl.
    rewrite elem_of_app, list_elem_of_singleton. by intros [? | ?].
Qed.

Lemma Emplace_other {T} (ss ss' : SparseSet) (h h' : list T) (e : Goent)
    (c : T) :
  Inv ss h → is_Goent e → Emplace ss h e c = Ok (ss', h') →
  ∀ x, is_Goent x → x ≠ e →
    Get ss' x = Get ss x ∧ read ss' h' x = read ss h x.
Proof.
  intros HI He HE x Hx Hne. pose proof HI as [Hwf Hal].
  destruct (decide (0 ≤ x < 2 ^ 63)) as [Hx' | Hbig]; cycle 1.
  { apply (Goent_large x Hx) in Hbig.
    by rewrite !Get_large, !read_large. }
  destruct (Emplace_Ok_range ss h e c _ Hwf He HE) as [He' Hr].
  destruct (Emplace_total ss h e c HI (proj1 He') Hr)
    as (ss2 & h2 & p & HE2 & _ & HG2 & _ & Hold & Hnew).
  rewrite HE in HE2. injection HE2 as <- <-.
  destruct (decide (holds ss e)) as [Hh | Hn].
  - destruct (Hold Hh) as [-> ->]. split; [done |].
    unfold read. destruct (Get ss x) as [[q |] |] eqn:HGx; try done.
    simpl. unfold store. rewrite list_lookup_insert_ne; [done |].
    intros <-. by apply (slots_distinct ss x e p p Hwf Hx He HGx HG2 Hne).
  - destruct (Hnew Hn) as (-> & -> & _).
    pose proof (Get_fresh_frame ss h e x c HI (proj1 He') Hr Hn Hx' Hne) as HGeq.
    split; [done |].
    unfold read. rewrite HGeq.
    destruct (Get ss x) as [[q |] |] eqn:HGx; try done. simpl.
    destruct (Get_Some_inv ss Hwf x q Hx HGx) as (k & _ & Hq).
    rewrite lookup_app_l; [done |].
    apply Hal. by eapply list_elem_of_lookup_2.
Qed.

(** X4: an [Emplace] on [e] that returns leaves every other entity as it
    was: [Get] returns the same result (the same slot, or not-found) and
    the component value read through it is the same, whether the call
    overwrote, appended or grew the sparse index; and in the heap it
    changes no cell that existed, except the cell of the slot [e] already
    had. *)
Theorem Emplace_frame {T} (ss ss' : SparseSet) (h h' : list T) (e : Goent)
    (c : T) :
  Inv ss h → is_Goent e → Emplace ss h e c = Ok (ss', h') →
  (∀ x, is_Goent x → x ≠ e →
     Get ss' x = Get ss x ∧ read ss' h' x = read ss h x)
  ∧ (∀ q, (q < length h)%nat → Get ss e ≠ Ok (Some q) → h' !! q = h !! q).
Proof.
  intros HI He HE. split; [by apply (Emplace_other ss ss' h h' e c) |].
  intros q Hq Hslot. pose proof HI as [Hwf Hal].
  destruct (Emplace_Ok_range ss h e c _ Hwf He HE) as [He' Hr].
  destruct (Emplace_total ss h e c HI (proj1 He') Hr)
    as (ss2 & h2 & p & HE2 & _ & HG2 & _ & Hold & Hnew).
  rewrite HE in HE2. injection HE2 as <- <-.
  destruct (decide (holds ss e)) as [Hh | Hn].
  - destruct (Hold Hh) as [-> ->]. unfold store.
    apply list_lookup_insert_ne. intros ->. by apply Hslot.
  - destruct (Hnew Hn) as (_ & -> & _). by apply lookup_app_l.
Qed.

Lemma Emplace_frame_witness :
  ∃ ss' h', Emplace sample_set sample_heap 7 71 = Ok (ss', h')
    ∧ Get ss' 3 = Get sample_set 3
    ∧ read ss' h' 3 = read sample_set sample_heap 3.
Proof.
  destruct (Emplace sample_set sample_heap 7 71) as [[ss' h'] |] eqn:HE;
    [| by vm_compute in HE].
  exists ss', h'. split; [done |].
  destruct (Emplace_frame sample_set ss' sample_heap h' 7 71) as [H _].
  - apply Inv_check_sound. vm_compute. reflexivity.
  - unfold is_Goent, uint64_mod. lia.
  - exact HE.
  - apply (H 3); [unfold is_Goent, uint64_mod; lia | lia].
Defined.

Section remove_frame.
Variable ss : SparseSet.
Hypothesis Hwf : wf ss.
Variables (i : nat) (e : Goent).
Hypothesis Hd : dense ss !! i = Some e.
Variables (lastEntity : Goent) (lastComp : loc).
Hypothesis Hle : dense ss !! (length (dense ss) - 1)%nat = Some lastEntity.
Hypothesis Hlc : components ss !! (length (dense ss) - 1)%nat = Some lastComp.

Lemma swap_removed_dense_sub (y : Goent) :
  holds (swap_removed ss e i lastEntity lastComp) y → holds ss y.
Proof.
  unfold holds, swap_removed. simpl. intros [k Hk]%list_elem_of_lookup.
  apply lookup_take_insert in Hk as [_ [(_ & _ & ->) | [_ Hk]]];
    by eapply list_elem_of_lookup_2.
Qed.

(** An entity other than the removed one keeps its slot, at its old
    position or at the position of the removed entity. *)
Lemma swap_removed_keeps (k : nat) (x : Goent) (q : loc) :
  dense ss !! k = Some x → components ss !! k = Some q → x ≠ e →
  ∃ j, dense (swap_removed ss e i lastEntity lastComp) !! j = Some x
     ∧ components (swap_removed ss e i lastEntity lastComp) !! j = Some q.
Proof.
  intros Hk Hq Hne.
  pose proof (lookup_lt_Some _ _ _ Hd) as Hi.
  pose proof (lookup_lt_Some _ _ _ Hk) as Hkn.
  pose proof (wf_aligned ss Hwf) as Hal.
  assert (k ≠ i) as Hki.
  { intros ->. rewrite Hd in Hk. by injection Hk. }
  unfold swap_removed. simpl.
  destruct (decide (k = (length (dense ss) - 1)%nat)) as [-> | Hkl].
  - rewrite Hle in Hk. injection Hk as ->. rewrite Hlc in Hq. injection Hq as ->.
    exists i. split; apply lookup_take_insert;
      (split; [lia | left; split_and!; [done | lia | done]]).
  - exists k. split; apply lookup_take_insert;
      (split; [lia | right; by split]).
Qed.

Lemma swap_removed_Get (x : Goent) :
  0 ≤ x < 2 ^ 63 → x ≠ e →
  Get (swap_removed ss e i lastEntity lastComp) x = Get ss x.
Proof.
  intros Hx Hne.
  pose proof (wf_swap_removed ss Hwf i e Hd lastEntity lastComp Hle Hlc) as Hwf'.
  destruct (decide (holds ss x)) as [Hh | Hn].
  - destruct (proj1 (list_elem_of_lookup _ _) Hh) as [k Hk].
    destruct (Get_holds ss Hwf k x Hk) as (q & Hq & ->).
    destruct (swap_removed_keeps k x q Hk Hq Hne) as (j & Hj & Hjq).
    destruct (Get_holds _ Hwf' j x Hj) as (q' & Hq' & ->).
    rewrite Hjq in Hq'. by injection Hq' as <-.
  - rewrite (Get_absent ss Hwf x Hx Hn).
    apply (Get_absent _ Hwf' x Hx). intros Hh. by apply Hn, swap_removed_dense_sub.
Qed.

Lemma swap_removed_holds (x : Goent) :
  holds (swap_removed ss e i lastEntity lastComp) x ↔ holds ss x ∧ x ≠ e.
Proof.
  split.
  - intros Hh. split; [by apply swap_removed_dense_sub |].
    intros ->. revert Hh.
    by apply (swap_removed_absent ss Hwf i e Hd lastEntity lastComp Hle Hlc).
  - intros [[k Hk]%list_elem_of_lookup Hne].
    destruct (lookup_lt_is_Some_2 (components ss) k) as [q Hq].
    { rewrite <- (wf_aligned ss Hwf). by eapply lookup_lt_Some. }
    destruct (swap_removed_keeps k x q Hk Hq Hne) as (j & Hj & _).
    by eapply list_elem_of_lookup_2.
Qed.

Lemma swap_removed_old_slot (p : loc) :
  components ss !! i = Some p →
  p ∉ components (swap_removed ss e i lastEntity lastComp).
Proof.
  intros Hp [k Hk]%list_elem_of_lookup. unfold swap_removed in Hk. simpl in Hk.
  pose proof (wf_slots ss Hwf) as Hnd.
  apply lookup_take_insert in Hk as [Hkn [(-> & _ & ->) | [Hki Hk]]].
  - pose proof (NoDup_lookup _ _ _ _ Hnd Hp Hlc). lia.
  - by pose proof (NoDup_lookup _ _ _ _ Hnd Hp Hk).
Qed.
End remove_frame.

(** What a [Remove] that returns did. *)
Lemma Remove_cases (ss ss' : SparseSet) (e : Goent) :
  wf ss → is_Goent e → Remove ss e = Ok ss' →
  0 ≤ e < 2 ^ 63
  ∧ ((¬ holds ss e ∧ ss' = ss)
     ∨ ∃ i le lc,
         dense ss !! i = Some e
         ∧ dense ss !! (length (dense ss) - 1)%nat = Some le
         ∧ components ss !! (length (dense ss) - 1)%nat = Some lc
         ∧ ss' = swap_removed ss e i le lc).
Proof.
  intros Hwf He HR.
  pose proof (Remove_Ok_range ss ss' e Hwf He HR) as He'. split; [done |].
  destruct (decide (holds ss e)) as [Hh | Hn].
  - right. destruct (proj1 (list_elem_of_lookup _ _) Hh) as [i Hd].
    destruct (remove_last_exists ss Hwf i e Hd) as (le & lc & Hle & Hlc).
    exists i, le, lc. split_and!; try done.
    rewrite (Remove_holds ss Hwf i e Hd le lc Hle Hlc) in HR. by injection HR.
  - left. split; [done |].
    rewrite (Remove_noop ss e (Get_absent ss Hwf e He' Hn)) in HR.
    by injection HR.
Qed.

Lemma Remove_other (ss ss' : SparseSet) (e : Goent) :
  wf ss → is_Goent e → Remove ss e = Ok ss' →
  ∀ x, is_Goent x → x ≠ e →
    Get ss' x = Get ss x
    ∧ ∀ T (h : list T), read ss' h x = read ss h x.
Proof.
  intros Hwf He HR x Hx Hne.
  assert (Get ss' x = Get ss x) as HG.
  { destruct (decide (0 ≤ x < 2 ^ 63)) as [Hx' | Hbig]; cycle 1.
    { apply (Goent_large x Hx) in Hbig. by rewrite !Get_large. }
    destruct (Remove_cases ss ss' e Hwf He HR)
      as [_ [[_ ->] | (i & le & lc & Hd & Hle & Hlc & ->)]]; [done |].
    by apply swap_removed_Get. }
  split; [done |]. intros T h. unfold read. by rewrite HG.
Qed.

(** X5: a [Remove] on [e] that returns leaves every other entity with the
    slot it had: [Get] returns the same pointer (or not-found) although the
    swap with the last entry may have moved the entity, so a pointer
    obtained before the removal still designates the entity's component;
    and the set keeps only slots it had. *)
Theorem Remove_frame (ss ss' : SparseSet) (e : Goent) :
  wf ss → is_Goent e → Remove ss e = Ok ss' →
  (∀ x, is_Goent x → x ≠ e →
     Get ss' x = Get ss x
     ∧ ∀ T (h : list T), read ss' h x = read ss h x)
  ∧ (∀ p, p ∈ components ss' → p ∈ components ss).
Proof.
  intros Hwf He HR. split; [by apply (Remove_other ss ss' e) |].
  pose proof (Remove_Ok_range ss ss' e Hwf He HR) as He'.
  destruct (Remove_total ss e Hwf He') as (ss2 & HR2 & _ & _ & Hsl & _).
  rewrite HR in HR2. injection HR2 as <-. exact Hsl.
Qed.

Lemma Remove_frame_witness :
  ∃ ss', Remove sample_set 3 = Ok ss'
    ∧ Get ss' 9 = Get sample_set 9
    ∧ ∀ T (h : list T), read ss' h 9 = read sample_set h 9.
Proof.
  destruct (Remove sample_set 3) as [ss' |] eqn:HR; [| by vm_compute in HR].
  exists ss'. split; [done |].
  destruct (Remove_frame sample_set ss' 3) as [H _].
  - apply wf_check_sound. vm_compute. reflexivity.
  - unfold is_Goent, uint64_mod. lia.
  - exact HR.
  - apply (H 9); [unfold is_Goent, uint64_mod; lia | lia].
Defined.

(** ** The set of entities that hold a component *)

(** X6: the entities that hold a component form a finite set on which
    [Emplace] is insertion and [Remove] is deletion: after an [Emplace] on
    [e] the holders are the old ones and [e], and [dense] is one entry
    longer exactly when [e] was not a holder; after a [Remove] on [e] the
    holders are the old ones except [e], and [dense] is one entry shorter
    exactly when [e] was a holder. *)
Theorem holders_insert_delete {T} (ss : SparseSet) (h : list T) (e : Goent) :
  Inv ss h → is_Goent e →
  (∀ c ss' h', Emplace ss h e c = Ok (ss', h') →
     (∀ x, holds ss' x ↔ holds ss x ∨ x = e)
     ∧ length (dense ss')
       = (if decide (holds ss e) then length (dense ss)
          else S (length (dense ss))))
  ∧ (∀ ss', Remove ss e = Ok ss' →
       (∀ x, holds ss' x ↔ holds ss x ∧ x ≠ e)
       ∧ length (dense ss')
         = (if decide (holds ss e) then (length (dense ss) - 1)%nat
            else length (dense ss))).
Proof.
  intros HI He. pose proof HI as [Hwf Hal]. split.
  - intros c ss' h' HE.
    destruct (Emplace_Ok_range ss h e c _ Hwf He HE) as [He' Hr].
    destruct (Emplace_total ss h e c HI (proj1 He') Hr)
      as (ss2 & h2 & p & HE2 & _ & _ & _ & Hold & Hnew).
    rewrite HE in HE2. injection HE2 as <- <-.
    destruct (decide (holds ss e)) as [Hh | Hn].
    + destruct (Hold Hh) as [-> _]. split; [| done].
      intros x. split; [by left | by intros [? | ->]].
    + destruct (Hnew Hn) as (-> & _ & _). unfold holds. simpl. split.
      * intros x. by rewrite elem_of_app, list_elem_of_singleton.
      * rewrite length_app. simpl. lia.
  - intros ss' HR.
    destruct (Remove_cases ss ss' e Hwf He HR)
      as [_ [[Hn ->] | (i & le & lc & Hd & Hle & Hlc & ->)]].
    + rewrite decide_False by done. split; [| done].
      intros x. split; [| by intros [? _]].
      intros Hx. split; [done |]. by intros ->.
    + rewrite decide_True by (by eapply list_elem_of_lookup_2). split.
      * intros x. by apply swap_removed_holds.
      * unfold swap_removed. simpl. rewrite length_take, length_insert. lia.
Qed.

Lemma holders_insert_delete_witness :
  ∃ ss', Remove sample_set 7 = Ok ss'
    ∧ (∀ x, holds ss' x ↔ holds sample_set x ∧ x ≠ 7)
    ∧ length (dense ss') = 2%nat.
Proof.
  destruct (Remove sample_set 7) as [ss' |] eqn:HR; [| by vm_compute in HR].
  exists ss'. split; [done |].
  destruct (holders_insert_delete sample_set sample_heap 7) as [_ H].
  - apply Inv_check_sound. vm_compute. reflexivity.
  - unfold is_Goent, uint64_mod. lia.
  - destruct (H ss' HR) as [Hx Hlen]. split; [exact Hx |].
    rewrite Hlen. vm_compute. reflexivity.
Defined.

(** ** Emplace followed by Remove *)



(** ** Order and slots under removal *)

(** X8: [Remove] compacts by swapping with the last entry: when [e] is
    held at position [i], the entity and the slot that were last move to
    position [i], every other position below the new length keeps its
    entity and slot, and the sequences are one entry shorter; so removing
    the last entity keeps the order of the others, and removing any other
    one changes it. *)
Theorem Remove_swaps_with_last (ss : SparseSet) (i : nat) (e l : Goent) :
  wf ss → dense ss !! i = Some e → last (dense ss) = Some l →
  ∃ ss',
    Remove ss e = Ok ss'
    ∧ length (dense ss') = (length (dense ss) - 1)%nat
    ∧ length (components ss') = (length (dense ss) - 1)%nat
    ∧ (∀ k, (k < length (dense ss) - 1)%nat → k ≠ i →
         dense ss' !! k = dense ss !! k
         ∧ components ss' !! k = components ss !! k)
    ∧ ((i < length (dense ss) - 1)%nat →
         dense ss' !! i = Some l
         ∧ components ss' !! i
           = components ss !! (length (dense ss) - 1)%nat)
    ∧ (e = l → dense ss' = take (length (dense ss) - 1) (dense ss)).
Proof.
  intros Hwf Hd Hlast. rewrite last_lookup in Hlast.
  replace (Nat.pred (length (dense ss))) with (length (dense ss) - 1)%nat
    in Hlast by lia.
  pose proof (lookup_lt_Some _ _ _ Hd) as Hi.
  pose proof (wf_aligned ss Hwf) as Hal.
  destruct (lookup_lt_is_Some_2 (components ss) (length (dense ss) - 1))
    as [lc Hlc]; [lia |].
  exists (swap_removed ss e i l lc). split_and!.
  - by apply Remove_holds.
  - unfold swap_removed. simpl. rewrite length_take, length_insert. lia.
  - unfold swap_removed. simpl. rewrite length_take, length_insert. lia.
  - intros k Hk Hki. unfold swap_removed. simpl.
    rewrite !lookup_take_lt by lia.
    by rewrite !list_lookup_insert_ne by done.
  - intros Hlt. unfold swap_removed. simpl.
    rewrite !lookup_take_lt by lia.
    rewrite !list_lookup_insert_eq by lia. by rewrite Hlc.
  - intros ->. unfold swap_removed. simpl.
    assert (i = (length (dense ss) - 1)%nat) as ->.
    { destruct (wf_dense ss Hwf _ _ Hd) as [_ H1].
      destruct (wf_dense ss Hwf _ _ Hlast) as [_ H2].
      rewrite H1 in H2. injection H2. lia. }
    by rewrite take_insert_ge by lia.
Qed.

Lemma Remove_swaps_with_last_witness :
  ∃ ss',
    Remove sample_set 3 = Ok ss'
    ∧ length (dense ss') = 2%nat
    ∧ dense ss' !! 0%nat = Some 9
    ∧ components ss' !! 0%nat = Some 2%nat
    ∧ dense ss' !! 1%nat = Some 7.
Proof.
  destruct (Remove_swaps_with_last sample_set 0 3 9)
    as (ss' & HR & Hlen & _ & Hother & Hmoved & _).
  - apply wf_check_sound. vm_compute. reflexivity.
  - reflexivity.
  - reflexivity.
  - exists ss'. split; [exact HR |]. split; [exact Hlen |].
    destruct Hmoved as [Hm1 Hm2]; [simpl; lia |].
    destruct (Hother 1%nat) as [Ho _]; [simpl; lia | lia |].
    split; [exact Hm1 |]. split; [rewrite Hm2; reflexivity |].
    rewrite Ho. reflexivity.
Defined.

Lemma Remove_sparse_length (ss ss' : SparseSet) (e : Goent) :
  wf ss → is_Goent e → Remove ss e = Ok ss' →
  length (sparse ss') = length (sparse ss).
Proof.
  intros Hwf He HR.
  destruct (Remove_cases ss ss' e Hwf He HR)
    as [_ [[_ ->] | (i & le & lc & _ & _ & _ & ->)]]; [done |].
  unfold swap_removed. simpl. by rewrite !length_insert.
Qed.



(** ** Capacity of the sparse index *)

(** X10: the capacity of the sparse index starts at the alignment, stays a
    multiple of it and never shrinks: an [Emplace] that returns leaves a
    capacity that is a multiple of the alignment, at least the old one,
    larger than the handle, and equal to the old one when the handle was
    below it; a [Remove] that returns leaves the capacity as it was. *)
Theorem capacity_aligned_monotone {T} (ss : SparseSet) (h : list T)
    (e : Goent) :
  Inv ss h → is_Goent e → Z.rem (len (sparse ss)) alignment = 0 →
  len (sparse NewSparseSet) = alignment
  ∧ (∀ c ss' h', Emplace ss h e c = Ok (ss', h') →
       Z.rem (len (sparse ss')) alignment = 0
       ∧ len (sparse ss) ≤ len (sparse ss')
       ∧ e < len (sparse ss')
       ∧ (e < len (sparse ss) → len (sparse ss') = len (sparse ss)))
  ∧ (∀ ss', Remove ss e = Ok ss' → len (sparse ss') = len (sparse ss)).
Proof.
  intros HI He Hrem. pose proof HI as [Hwf Hal]. split_and!.
  - vm_compute. reflexivity.
  - intros c ss' h' HE.
    destruct (Emplace_Ok_range ss h e c _ Hwf He HE) as [He' Hr].
    destruct (Emplace_total ss h e c HI (proj1 He') Hr)
      as (ss2 & h2 & p & HE2 & _ & _ & _ & Hold & Hnew).
    rewrite HE in HE2. injection HE2 as <- <-.
    destruct (decide (holds ss e)) as [Hh | Hn].
    + destruct (Hold Hh) as [-> _].
      destruct (proj1 (list_elem_of_lookup _ _) Hh) as [i Hd].
      pose proof (wf_dense_lt ss Hwf i e Hd). split_and!; [done | lia | done | done].
    + destruct (Hnew Hn) as (-> & _ & _). simpl.
      destruct (grow_step (sparse ss) e (wf_cap ss Hwf) (proj1 He') Hr)
        as (_ & Hlt & Hlen).
      assert (len (<[Z.to_nat e := len (dense ss)]> (grown (sparse ss) e))
              = len (grown (sparse ss) e)) as ->.
      { unfold len. by rewrite length_insert. }
      destruct (decide (len (sparse ss) ≤ e)) as [Hge | Hlow].
      * rewrite (Hlen Hge).
        destruct (nextAlignedCapacity_bounds (e + 1)) as (Hb & _ & Hr');
          [lia |].
        split_and!; [done | lia | lia | lia].
      * unfold grown. rewrite bool_decide_eq_false_2 by done.
        split_and!; [done | lia | lia | done].
  - intros ss' HR. unfold len.
    by rewrite (Remove_sparse_length ss ss' e Hwf He HR).
Qed.

Lemma capacity_aligned_monotone_witness :
  ∃ ss' h', Emplace sample_set sample_heap 1000 5 = Ok (ss', h')
    ∧ Z.rem (len (sparse ss')) alignment = 0
    ∧ len (sparse sample_set) ≤ len (sparse ss')
    ∧ 1000 < len (sparse ss').
Proof.
  destruct (Emplace sample_set sample_heap 1000 5) as [[ss' h'] |] eqn:HE;
    [| by vm_compute in HE].
  exists ss', h'. split; [done |].
  destruct (capacity_aligned_monotone sample_set sample_heap 1000)
    as (_ & H & _).
  - apply Inv_check_sound. vm_compute. reflexivity.
  - unfold is_Goent, uint64_mod. lia.
  - vm_compute. reflexivity.
  - destruct (H 5 ss' h' HE) as (H1 & H2 & H3 & _). by split_and!.
Defined.

(** ** Components in the registry *)

Lemma reg_ok_check_sound {T} (r : Registry) (h : list T) :
  reg_ok_check r h = true → reg_ok r h.
Proof.
  unfold reg_ok_check. rewrite andb_true_iff, !bool_decide_eq_true.
  intros [HI Hdis]. split.
  - intros k ss Hk. apply Inv_check_sound. by apply (HI k ss).
  - intros k1 k2 s1 s2 p Hk1 Hk2 Hp1 Hp2.
    destruct (Hdis k1 s1 Hk1 k2 s2 Hk2) as [? | Hno]; [done |].
    rewrite Forall_forall in Hno. by destruct (Hno p Hp1).
Qed.

Lemma ReadComponent_lookup {T} (r : Registry) (h : list T) (k : gotype)
    (s : SparseSet) (e : Goent) :
  r !! k = Some s → ReadComponent r h k e = read s h e.
Proof. intros Hk. unfold ReadComponent, GetComponent, read. by rewrite Hk. Qed.

Lemma ReadComponent_missing {T} (r : Registry) (h : list T) (k : gotype)
    (e : Goent) :
  r !! k = None → ReadComponent r h k e = Ok None.
Proof. intros Hk. unfold ReadComponent, GetComponent. by rewrite Hk. Qed.

(** The value read through an allocated slot other than [p] does not
    depend on the cell [p], nor on cells appended to the heap. *)
Lemma read_store_other {T} (s : SparseSet) (h : list T) (p : loc) (c : T)
    (e : Goent) :
  wf s → is_Goent e → p ∉ components s →
  read s (store h p c) e = read s h e.
Proof.
  intros Hwf He Hp. unfold read.
  destruct (Get s e) as [[q |] |] eqn:HG; try done. simpl.
  destruct (Get_Some_inv s Hwf e q He HG) as (i & _ & Hq).
  unfold store. rewrite list_lookup_insert_ne; [done |].
  intros ->. apply Hp. by eapply list_elem_of_lookup_2.
Qed.

Lemma read_app {T} (s : SparseSet) (h : list T) (c : T) (e : Goent) :
  Inv s h → is_Goent e → read s (h ++ [c]) e = read s h e.
Proof.
  intros [Hwf Hal] He. unfold read.
  destruct (Get s e) as [[q |] |] eqn:HG; try done. simpl.
  destruct (Get_Some_inv s Hwf e q He HG) as (i & _ & Hq).
  rewrite lookup_app_l; [done |]. apply Hal. by eapply list_elem_of_lookup_2.
Qed.



(** X12: in a registry that satisfies its invariant, [RemoveComponent] on
    a handle below [2^63] returns; afterwards the entity holds no component
    of the type, the invariant still holds, and every other pair of a type
    and an entity gets the same pointer from [GetComponent] and reads the
    same value, whether or not the removal moved it in its set. *)
Theorem RemoveComponent_deletes_only {T} (r : Registry) (h : list T)
    (k : gotype) (e : Goent) :
  reg_ok r h → 0 ≤ e < 2 ^ 63 →
  ∃ r',
    RemoveComponent r k e = Ok r'
    ∧ reg_ok r' h
    ∧ GetComponent r' k e = Ok None
    ∧ (∀ k' e', is_Goent e' → (k', e') ≠ (k, e) →
         GetComponent r' k' e' = GetComponent r k' e'
         ∧ ReadComponent r' h k' e' = ReadComponent r h k' e').
Proof.
  intros [HI Hdis] He.
  assert (is_Goent e) as HeG by (unfold is_Goent, uint64_mod; lia).
  destruct (r !! k) as [s |] eqn:Hk; cycle 1.
  { exists r. unfold RemoveComponent, GetComponent. rewrite Hk.
    split_and!; try done. }
  destruct (HI k s Hk) as [Hwf Hal].
  destruct (Remove_total s e Hwf He) as (s' & HR & Hwf' & Hn' & Hsl & _).
  exists (<[k := s']> r).
  assert (RemoveComponent r k e = Ok (<[k := s']> r)) as HRC.
  { unfold RemoveComponent. by rewrite Hk, HR. }
  split_and!.
  - done.
  - split.
    + by apply (RemoveComponent_reg_Inv r _ h k e HI HeG).
    + intros k1 k2 s1 s2 q Hk1 Hk2 Hq1 Hq2.
      apply lookup_insert_Some in Hk1 as [[<- <-] | [Hn1 Hk1]];
        apply lookup_insert_Some in Hk2 as [[<- <-] | [Hn2 Hk2]]; try done.
      * by eapply (Hdis k k2 s s2 q); [| | apply Hsl |].
      * by eapply (Hdis k1 k s1 s q); [| | | apply Hsl].
      * by eapply (Hdis k1 k2 s1 s2 q).
  - unfold GetComponent. rewrite lookup_insert_eq. by apply Get_absent.
  - intros k' e' He' Hne.
    destruct (decide (k' = k)) as [-> | Hk'].
    + assert (e' ≠ e) as Hee by congruence.
      destruct (Remove_other s s' e Hwf HeG HR e' He' Hee) as [HGeq Hreq].
      rewrite (ReadComponent_lookup _ _ k s') by apply lookup_insert_eq.
      rewrite (ReadComponent_lookup r h k s e' Hk).
      unfold GetComponent. rewrite lookup_insert_eq, Hk. by split.
    + unfold ReadComponent, GetComponent. by rewrite lookup_insert_ne by done.
Qed.

Lemma RemoveComponent_deletes_only_witness :
  ∃ r',
    RemoveComponent sample_registry (TNamed 0) 3 = Ok r'
    ∧ reg_ok r' sample_heap_AB
    ∧ GetComponent r' (TNamed 0) 3 = Ok None
    ∧ GetComponent r' (TNamed 0) 9 = GetComponent sample_registry (TNamed 0) 9.
Proof.
  destruct (RemoveComponent_deletes_only sample_registry sample_heap_AB
              (TNamed 0) 3) as (r' & HR & Hok & Hgone & Hfr).
  - apply reg_ok_check_sound. vm_compute. reflexivity.
  - lia.
  - exists r'. split_and!; [exact HR | exact Hok | exact Hgone |].
    apply (Hfr (TNamed 0) 9); [unfold is_Goent, uint64_mod; lia | ].
    intros [= ?].
Defined.

(** X13: [RegisterComponent] stores the new empty set it returns under the
    type; afterwards the type is present, no entity below [2^63] holds a
    component of it, [Iterate2] with the type as either argument calls the
    visitor on nothing, every other type answers [GetComponent] as before,
    and the registry invariant still holds. *)
Theorem RegisterComponent_empty_present {T} (r : Registry) (h : list T)
    (k : gotype) :
  reg_ok r h →
  (RegisterComponent r k).2 = NewSparseSet
  ∧ (RegisterComponent r k).1 !! k = Some (RegisterComponent r k).2
  ∧ reg_ok (RegisterComponent r k).1 h
  ∧ (∀ e, 0 ≤ e < 2 ^ 63 → GetComponent (RegisterComponent r k).1 k e = Ok None)
  ∧ (∀ k' e, k' ≠ k →
       GetComponent (RegisterComponent r k).1 k' e = GetComponent r k' e)
  ∧ (∀ k2 W (f : Goent → loc → loc → W → W) (w : W),
       Iterate2 (RegisterComponent r k).1 k k2 f w = Ok w
       ∧ Iterate2 (RegisterComponent r k).1 k2 k f w = Ok w).
Proof.
  intros [HI Hdis]. unfold RegisterComponent. cbn [fst snd]. split_and!.
  - done.
  - apply lookup_insert_eq.
  - split.
    + by apply (RegisterComponent_reg_Inv r h k).
    + intros k1 k2 s1 s2 q Hk1 Hk2 Hq1 Hq2.
      apply lookup_insert_Some in Hk1 as [[<- <-] | [Hn1 Hk1]];
        [by apply elem_of_nil in Hq1 |].
      apply lookup_insert_Some in Hk2 as [[<- <-] | [Hn2 Hk2]];
        [by apply elem_of_nil in Hq2 |].
      by eapply (Hdis k1 k2 s1 s2 q).
  - intros e He. unfold GetComponent. rewrite lookup_insert_eq.
    apply (Get_absent _ wf_NewSparseSet e He). by intros ?%elem_of_nil.
  - intros k' e Hne. unfold GetComponent. by rewrite lookup_insert_ne.
  - intros k2 W f w. unfold Iterate2, getStorage. rewrite lookup_insert_eq.
    destruct (<[k := NewSparseSet]> r !! k2) as [s2 |]; [| done].
    cbv zeta. split.
    + rewrite bool_decide_eq_false_2; [done |].
      change (dense NewSparseSet) with (@nil Goent). unfold len. simpl. lia.
    + case_bool_decide as Hlt; [done |].
      destruct (dense s2); [done |].
      exfalso. apply Hlt. change (dense NewSparseSet) with (@nil Goent).
      unfold len. simpl. lia.
Qed.

Lemma RegisterComponent_empty_present_witness :
  (RegisterComponent sample_registry (TNamed 5)).1 !! TNamed 5
  = Some NewSparseSet
  ∧ reg_ok (RegisterComponent sample_registry (TNamed 5)).1 sample_heap_AB
  ∧ (∀ e, 0 ≤ e < 2 ^ 63 →
       GetComponent (RegisterComponent sample_registry (TNamed 5)).1
         (TNamed 5) e = Ok None).
Proof.
  destruct (RegisterComponent_empty_present sample_registry sample_heap_AB
              (TNamed 5)) as (_ & Hin & Hok & Hnone & _).
  - apply reg_ok_check_sound. vm_compute. reflexivity.
  - split_and!; [exact Hin | exact Hok | exact Hnone].
Defined.

(** ** More on iteration *)

Lemma IterateReflective_calls_snd (r : Registry) (params : list gotype)
    (k0 : gotype) (s0 sb : SparseSet) (rest : list (gotype * SparseSet)) :
  reg_wf r → forallb is_ptr params = true →
  resolve_storages r params = Some ((k0, s0) :: rest) →
  snd <$> ((k0, s0) :: rest) !! pick_base rest 1 0 (len (GetDense s0))
    = Some sb →
  ∀ W (body : Goent → list loc → W → W) (w : W),
    IterateReflective r (VFunc (TGoent :: params) body) w
    = Ok (run_calls body (calls (s0 :: rest.*2) (dense sb)) w).
Proof.
  intros Hr Hp Hres Hbase.
  destruct (((k0, s0) :: rest) !! pick_base rest 1 0 (len (GetDense s0)))
    as [[kb sb'] |] eqn:Hl; [| done].
  injection Hbase as ->.
  by apply (IterateReflective_calls r params k0 kb s0 sb rest).
Qed.

(** X14: [IterateReflective] with a visitor [(Goent, *C1, ..., *Ck)] of any
    arity [k ≥ 1], in a well-formed registry, returns, and what it does is
    the visitor applied in order along a list of calls that has no entity
    twice, whose entities are exactly those that hold a component of every
    declared type, and whose pointers are the slots [GetComponent] finds,
    in the order of the parameters. *)
Theorem IterateReflective_visits_exactly (r : Registry)
    (params : list gotype) :
  reg_wf r → params ≠ [] → forallb is_ptr params = true →
  ∃ l, visits_exactly r (param_key <$> params) l
    ∧ ∀ W (body : Goent → list loc → W → W) (w : W),
        IterateReflective r (VFunc (TGoent :: params) body) w
        = Ok (run_calls body l w).
Proof.
  intros Hr Hne Hp.
  destruct (resolve_storages r params) as [storages |] eqn:Hres; cycle 1.
  { exists []. split.
    - apply resolve_storages_None in Hres.
      apply Exists_exists in Hres as (t & Ht & Hnone).
      apply (visits_exactly_missing r _ (param_key t)); [| done].
      by apply list_elem_of_fmap_2.
    - intros W body w. by apply IterateReflective_missing. }
  destruct (resolve_storages_Some r params storages Hres) as [Hkeys Hall].
  destruct storages as [| [k0 s0] rest].
  { destruct params; [done | discriminate Hkeys]. }
  destruct (lookup_lt_is_Some_2 ((k0, s0) :: rest)
              (pick_base rest 1 0 (len (GetDense s0)))) as [[kb sb] Hbase].
  { pose proof (pick_base_lt rest 1 0 (len (GetDense s0)) ltac:(lia)).
    simpl. lia. }
  exists (calls (s0 :: rest.*2) (dense sb)). split.
  - rewrite <- Hkeys. apply visits_exactly_calls; [done | exact Hall |].
    change (sb ∈ ((k0, s0) :: rest).*2).
    apply list_elem_of_fmap. exists (kb, sb). split; [done |].
    by eapply list_elem_of_lookup_2.
  - by apply (IterateReflective_calls r params k0 kb s0 sb rest).
Qed.

Lemma IterateReflective_visits_exactly_witness :
  ∃ l, visits_exactly sample_registry [TNamed 0] l
    ∧ ∀ W (body : Goent → list loc → W → W) (w : W),
        IterateReflective sample_registry
          (VFunc [TGoent; TPtr (TNamed 0)] body) w
        = Ok (run_calls body l w).
Proof.
  apply (IterateReflective_visits_exactly sample_registry [TPtr (TNamed 0)]).
  - apply reg_wf_check_sound. vm_compute. reflexivity.
  - discriminate.
  - reflexivity.
Defined.

(** X15: in a well-formed registry, [IterateReflective] with a visitor
    [(Goent, *A, *B, *C)] returns the same final state as [Iterate3], and
    with a visitor [(Goent, *A, *B, *C, *D)] the same as [Iterate4]: the
    loop that picks the driving set and the nested comparisons of the typed
    helpers choose the same set. *)
Theorem reflective_matches_Iterate3_Iterate4 (r : Registry) :
  reg_wf r →
  (∀ k1 k2 k3 W (f : Goent → loc → loc → loc → W → W) (w : W),
     ∃ w', Iterate3 r k1 k2 k3 f w = Ok w'
       ∧ IterateReflective r
           (VFunc [TGoent; TPtr k1; TPtr k2; TPtr k3] (visit3 f)) w = Ok w')
  ∧ (∀ k1 k2 k3 k4 W (f : Goent → loc → loc → loc → loc → W → W) (w : W),
       ∃ w', Iterate4 r k1 k2 k3 k4 f w = Ok w'
         ∧ IterateReflective r
             (VFunc [TGoent; TPtr k1; TPtr k2; TPtr k3; TPtr k4] (visit4 f)) w
           = Ok w').
Proof.
  intros Hr. split.
  - intros k1 k2 k3 W f w.
    destruct (r !! k1) as [s1 |] eqn:Hk1; cycle 1.
    { exists w. split.
      - unfold Iterate3, getStorage. by rewrite Hk1.
      - apply IterateReflective_missing; [done |].
        cbn [resolve_storages is_ptr Elem]. by rewrite Hk1. }
    destruct (r !! k2) as [s2 |] eqn:Hk2; cycle 1.
    { exists w. split.
      - unfold Iterate3, getStorage. by rewrite Hk1, Hk2.
      - apply IterateReflective_missing; [done |].
        cbn [resolve_storages is_ptr Elem]. by rewrite Hk1, Hk2. }
    destruct (r !! k3) as [s3 |] eqn:Hk3; cycle 1.
    { exists w. split.
      - unfold Iterate3, getStorage. by rewrite Hk1, Hk2, Hk3.
      - apply IterateReflective_missing; [done |].
        cbn [resolve_storages is_ptr Elem]. by rewrite Hk1, Hk2, Hk3. }
    destruct (Iterate3_calls r k1 k2 k3 s1 s2 s3 Hr Hk1 Hk2 Hk3) as [_ Hit].
    eexists. split; [apply Hit |].
    apply (IterateReflective_calls_snd r [TPtr k1; TPtr k2; TPtr k3] k1
             s1 (smaller s3 (smaller s2 s1)) [(k2, s2); (k3, s3)] Hr);
      [done | |].
    + cbn [resolve_storages is_ptr Elem]. by rewrite Hk1, Hk2, Hk3.
    + cbn [pick_base]. unfold GetDense, smaller.
      repeat case_bool_decide; done.
  - intros k1 k2 k3 k4 W f w.
    destruct (r !! k1) as [s1 |] eqn:Hk1; cycle 1.
    { exists w. split.
      - unfold Iterate4, getStorage. by rewrite Hk1.
      - apply IterateReflective_missing; [done |].
        cbn [resolve_storages is_ptr Elem]. by rewrite Hk1. }
    destruct (r !! k2) as [s2 |] eqn:Hk2; cycle 1.
    { exists w. split.
      - unfold Iterate4, getStorage. by rewrite Hk1, Hk2.
      - apply IterateReflective_missing; [done |].
        cbn [resolve_storages is_ptr Elem]. by rewrite Hk1, Hk2. }
    destruct (r !! k3) as [s3 |] eqn:Hk3; cycle 1.
    { exists w. split.
      - unfold Iterate4, getStorage. by rewrite Hk1, Hk2, Hk3.
      - apply IterateReflective_missing; [done |].
        cbn [resolve_storages is_ptr Elem]. by rewrite Hk1, Hk2, Hk3. }
    destruct (r !! k4) as [s4 |] eqn:Hk4; cycle 1.
    { exists w. split.
      - unfold Iterate4, getStorage. by rewrite Hk1, Hk2, Hk3, Hk4.
      - apply IterateReflective_missing; [done |].
        cbn [resolve_storages is_ptr Elem]. by rewrite Hk1, Hk2, Hk3, Hk4. }
    destruct (Iterate4_calls r k1 k2 k3 k4 s1 s2 s3 s4 Hr Hk1 Hk2 Hk3 Hk4)
      as [_ Hit].
    eexists. split; [apply Hit |].
    apply (IterateReflective_calls_snd r
             [TPtr k1; TPtr k2; TPtr k3; TPtr k4] k1
             s1 (smaller s4 (smaller s3 (smaller s2 s1)))
             [(k2, s2); (k3, s3); (k4, s4)] Hr); [done | |].
    + cbn [resolve_storages is_ptr Elem]. by rewrite Hk1, Hk2, Hk3, Hk4.
    + cbn [pick_base]. unfold GetDense, smaller.
      repeat case_bool_decide; done.
Qed.

Lemma reflective_matches_Iterate3_Iterate4_witness :
  ∃ w', Iterate3 sample_registry (TNamed 0) (TNamed 1) (TNamed 0)
          (λ e _ _ _ (log : list Goent), log ++ [e]) [] = Ok w'
    ∧ IterateReflective sample_registry
        (VFunc [TGoent; TPtr (TNamed 0); TPtr (TNamed 1); TPtr (TNamed 0)]
               (visit3 (λ e _ _ _ (log : list Goent), log ++ [e]))) []
      = Ok w'.
Proof.
  destruct (reflective_matches_Iterate3_Iterate4 sample_registry) as [H3 _].
  - apply reg_wf_check_sound. vm_compute. reflexivity.
  - apply (H3 (TNamed 0) (TNamed 1) (TNamed 0)).
Defined.

(** ** Order of the visits *)

Lemma filter_ext_in {A} (P Q : A → Prop) `{!∀ x, Decision (P x)}
    `{!∀ x, Decision (Q x)} (l : list A) :
  (∀ x, x ∈ l → P x ↔ Q x) → filter P l = filter Q l.
Proof.
  induction l as [| a l IH]; intros Hext; [done |].
  assert (filter P l = filter Q l) as Hl.
  { apply IH. intros x Hx. apply Hext. by right. }
  rewrite !filter_cons, Hl.
  destruct (decide (P a)) as [Hp | Hp]; destruct (decide (Q a)) as [Hq | Hq];
    try done; exfalso.
  - apply Hq. apply (Hext a); [by left | done].
  - apply Hp. apply (Hext a); [by left | done].
Qed.

(** A visitor applied along the calls of an iteration, when the slots of
    every visited entity are given by a function. *)
Lemma run_calls_filter {W} (sets : list SparseSet)
    (g : Goent → list loc → W → W) (ps : Goent → list loc)
    (l : list Goent) (w : W) :
  (∀ e ps', e ∈ l → get_all sets e = Some ps' → ps' = ps e) →
  run_calls g (calls sets l) w
  = foldl (λ w e, g e (ps e) w) w
      (filter (λ e, is_Some (get_all sets e)) l).
Proof.
  revert w. induction l as [| e l IH]; intros w Hps; [done |].
  assert (∀ e' ps', e' ∈ l → get_all sets e' = Some ps' → ps' = ps e')
    as Hps' by (intros e' ps' He'; apply Hps; by right).
  unfold calls, run_calls in *. rewrite filter_cons. cbn [omap list_omap].
  destruct (get_all sets e) as [ps' |] eqn:Hg.
  - rewrite decide_True by (by eexists). cbn.
    rewrite (Hps e ps' ltac:(left) Hg). by apply IH.
  - rewrite decide_False by (by intros [? ?]). cbn. by apply IH.
Qed.

Lemma foldl_log (l : list Goent) (log : list Goent) :
  foldl (λ log e, log ++ [e]) log l = log ++ l.
Proof.
  revert log. induction l as [| e l IH]; intros log; simpl.
  - by rewrite app_nil_r.
  - by rewrite IH, <- app_assoc.
Qed.

Lemma get_all2_slots (s1 s2 : SparseSet) (e : Goent) (ps : list loc) :
  get_all [s1; s2] e = Some ps → ps = [slot s1 e; slot s2 e].
Proof.
  unfold slot. cbn [get_all].
  destruct (Get s1 e) as [[p1 |] |]; try done.
  destruct (Get s2 e) as [[p2 |] |]; try done.
  by intros [= <-].
Qed.

Lemma get_all2_is_Some (s0 s1 s2 : SparseSet) (e : Goent) :
  wf s0 → wf s1 → wf s2 → e ∈ dense s0 →
  is_Some (get_all [s1; s2] e) ↔ holds s1 e ∧ holds s2 e.
Proof.
  intros Hw0 Hw1 Hw2 [i Hd]%list_elem_of_lookup.
  destruct (wf_dense s0 Hw0 i e Hd) as [He _].
  rewrite (get_all_is_Some [s1; s2] e); [| by repeat apply Forall_cons_2 | done].
  rewrite !Forall_cons, Forall_nil. tauto.
Qed.

(** X16: [Iterate2] visits in the order of the dense sequence of the set it
    drives the loop with, which is the set of the first type unless the set
    of the second type has strictly fewer entities: the entities the
    visitor is called on, in order, are the entities of that dense sequence
    that also hold the other type. *)
Theorem Iterate2_order (r : Registry) (k1 k2 : gotype) (s1 s2 : SparseSet) :
  reg_wf r → r !! k1 = Some s1 → r !! k2 = Some s2 →
  Iterate2 r k1 k2 log_entity2 []
  = Ok (if bool_decide (len (dense s2) < len (dense s1))
        then filter (λ e, holds s1 e) (dense s2)
        else filter (λ e, holds s2 e) (dense s1)).
Proof.
  intros Hr Hk1 Hk2.
  pose proof (Hr k1 s1 Hk1) as Hw1. pose proof (Hr k2 s2 Hk2) as Hw2.
  destruct (Iterate2_calls r k1 k2 s1 s2 Hr Hk1 Hk2) as [_ ->]. f_equal.
  rewrite (run_calls_filter [s1; s2] (visit2 log_entity2)
             (λ e, [slot s1 e; slot s2 e]));
    [| intros e ps' _; apply get_all2_slots].
  cbn [visit2]. unfold log_entity2. rewrite foldl_log. cbn [app].
  unfold smaller. case_bool_decide.
  - apply filter_ext_in. intros e He.
    rewrite (get_all2_is_Some s2 s1 s2 e Hw2 Hw1 Hw2 He). unfold holds. tauto.
  - apply filter_ext_in. intros e He.
    rewrite (get_all2_is_Some s1 s1 s2 e Hw1 Hw1 Hw2 He). unfold holds. tauto.
Qed.

Lemma Iterate2_order_witness :
  Iterate2 sample_registry (TNamed 0) (TNamed 1) log_entity2 []
  = Ok (if bool_decide (len (dense sample_set_B) < len (dense sample_set))
        then filter (λ e, holds sample_set e) (dense sample_set_B)
        else filter (λ e, holds sample_set_B e) (dense sample_set)).
Proof.
  apply (Iterate2_order sample_registry (TNamed 0) (TNamed 1)).
  - apply reg_wf_check_sound. vm_compute. reflexivity.
  - reflexivity.
  - reflexivity.
Defined.

Lemma slot_Get (s : SparseSet) (e : Goent) (p : loc) :
  Get s e = Ok (Some p) → slot s e = p.
Proof. intros HG. unfold slot. by rewrite HG. Qed.

Lemma holds_slot (s : SparseSet) (e : Goent) :
  wf s → holds s e →
  Get s e = Ok (Some (slot s e)) ∧ slot s e ∈ components s ∧ is_Goent e.
Proof.
  intros Hwf [i Hd]%list_elem_of_lookup.
  destruct (Get_holds s Hwf i e Hd) as (p & Hp & HG).
  destruct (wf_dense s Hwf i e Hd) as [He _].
  rewrite (slot_Get s e p HG). split_and!; [done | |].
  - by eapply list_elem_of_lookup_2.
  - unfold is_Goent, uint64_mod. lia.
Qed.

(** X17: [Iterate2] with the same component type for both parameters
    visits every entity of the set of that type, once, in dense order, and
    passes the same pointer twice: the two component arguments of the
    visitor alias each other. *)
Theorem Iterate2_same_type (r : Registry) (k : gotype) (s : SparseSet) :
  reg_wf r → r !! k = Some s →
  (∀ e, holds s e → Get s e = Ok (Some (slot s e)))
  ∧ ∀ W (f : Goent → loc → loc → W → W) (w : W),
      Iterate2 r k k f w
      = Ok (foldl (λ w e, f e (slot s e) (slot s e) w) w (dense s)).
Proof.
  intros Hr Hk. pose proof (Hr k s Hk) as Hwf. split.
  - intros e He. by destruct (holds_slot s e Hwf He).
  - intros W f w.
    destruct (Iterate2_calls r k k s s Hr Hk Hk) as [_ ->]. f_equal.
    assert (smaller s s = s) as -> by (unfold smaller; by case_bool_decide).
    rewrite (run_calls_filter [s; s] (visit2 f) (λ e, [slot s e; slot s e]));
      [| intros e ps' _; apply get_all2_slots].
    cbn [visit2]. f_equal.
    rewrite (filter_ext_in _ (λ _, True) (dense s)).
    + induction (dense s) as [| a l IH]; [done |].
      rewrite filter_cons_True by done. by rewrite IH.
    + intros e He. rewrite (get_all2_is_Some s s s e Hwf Hwf Hwf He).
      unfold holds. tauto.
Qed.

Lemma Iterate2_same_type_witness :
  Iterate2 sample_registry (TNamed 0) (TNamed 0)
    (λ e p1 p2 (log : list (Goent * loc * loc)), log ++ [(e, p1, p2)]) []
  = Ok (foldl (λ log e, log ++ [(e, slot sample_set e, slot sample_set e)])
          [] (dense sample_set)).
Proof.
  destruct (Iterate2_same_type sample_registry (TNamed 0) sample_set)
    as [_ H].
  - apply reg_wf_check_sound. vm_compute. reflexivity.
  - reflexivity.
  - apply (H (list (Goent * loc * loc))
             (λ e p1 p2 log, log ++ [(e, p1, p2)]) []).
Defined.

(** ** Mutation through the pointers *)

Lemma update_first_store {T} (g : Goent → T → T → T) (e : Goent)
    (p1 p2 : loc) (h : list T) (a b : T) :
  h !! p1 = Some a → h !! p2 = Some b →
  update_first g e p1 p2 h = store h p1 (g e a b).
Proof. intros H1 H2. unfold update_first. by rewrite H1, H2. Qed.

(** The heap after the visitor [update_first g] ran over a list of distinct
    entities that hold a component in both sets. *)
Lemma update_fold {T} (g : Goent → T → T → T) (s1 s2 : SparseSet)
    (vs : list Goent) :
  wf s1 → wf s2 →
  (∀ p, p ∈ components s1 → p ∉ components s2) →
  NoDup vs → (∀ e, e ∈ vs → holds s1 e ∧ holds s2 e) →
  ∀ h : list T, allocated s1 h → allocated s2 h →
    length (foldl (λ h e, update_first g e (slot s1 e) (slot s2 e) h) h vs)
    = length h
    ∧ (∀ q, q ∉ slot s1 <$> vs →
         foldl (λ h e, update_first g e (slot s1 e) (slot s2 e) h) h vs !! q
         = h !! q)
    ∧ (∀ e, e ∈ vs →
         ∃ a b, h !! slot s1 e = Some a ∧ h !! slot s2 e = Some b
           ∧ foldl (λ h e, update_first g e (slot s1 e) (slot s2 e) h) h vs
               !! slot s1 e = Some (g e a b)).
Proof.
  intros Hw1 Hw2 Hsep Hnd Hboth.
  induction vs as [| e vs IH]; intros h Ha1 Ha2.
  { split_and!; [done | done | by intros e ?%elem_of_nil]. }
  apply NoDup_cons in Hnd as [Hnotin Hnd].
  assert (∀ e', e' ∈ vs → holds s1 e' ∧ holds s2 e') as Hboth'
    by (intros e' He'; apply Hboth; by right).
  specialize (IH Hnd Hboth').
  destruct (Hboth e ltac:(left)) as [Hh1 Hh2].
  destruct (holds_slot s1 e Hw1 Hh1) as (HG1 & Hp1 & HeG).
  destruct (holds_slot s2 e Hw2 Hh2) as (HG2 & Hp2 & _).
  destruct (lookup_lt_is_Some_2 h (slot s1 e) (Ha1 _ Hp1)) as [a Hva].
  destruct (lookup_lt_is_Some_2 h (slot s2 e) (Ha2 _ Hp2)) as [b Hvb].
  cbn [foldl]. rewrite (update_first_store g e _ _ h a b Hva Hvb).
  set (h1 := store h (slot s1 e) (g e a b)).
  assert (length h1 = length h) as Hlen1
    by (unfold h1, store; by rewrite length_insert).
  assert (allocated s1 h1) as Ha1'
    by (intros p Hp; rewrite Hlen1; by apply Ha1).
  assert (allocated s2 h1) as Ha2'
    by (intros p Hp; rewrite Hlen1; by apply Ha2).
  destruct (IH h1 Ha1' Ha2') as (Hlen & Hother & Hupd).
  assert (∀ e', e' ∈ vs → slot s1 e' ≠ slot s1 e) as Hinj.
  { intros e' He'. destruct (Hboth' e' He') as [Hh1' _].
    destruct (holds_slot s1 e' Hw1 Hh1') as (HG1' & _ & He'G).
    apply (slots_distinct s1 e' e _ _ Hw1 He'G HeG HG1' HG1).
    by intros ->. }
  assert (slot s1 e ∉ slot s1 <$> vs) as Hfresh.
  { intros (e' & Heq & He')%list_elem_of_fmap. by apply (Hinj e' He'). }
  split_and!.
  - by rewrite Hlen.
  - intros q Hq. rewrite fmap_cons in Hq.
    apply not_elem_of_cons in Hq as [Hq1 Hq2].
    rewrite (Hother q Hq2). unfold h1, store.
    by rewrite list_lookup_insert_ne.
  - intros e' [-> | He']%elem_of_cons.
    + exists a, b. split_and!; [done | done |].
      rewrite (Hother _ Hfresh). unfold h1, store.
      apply list_lookup_insert_eq. by apply Ha1.
    + destruct (Hupd e' He') as (a' & b' & Ha' & Hb' & Hfin).
      exists a', b'. split_and!; [| | done].
      * unfold h1, store in Ha'.
        rewrite list_lookup_insert_ne in Ha'; [done |].
        intros Heq. by apply (Hinj e' He').
      * unfold h1, store in Hb'.
        rewrite list_lookup_insert_ne in Hb'; [done |].
        intros Heq. destruct (Hboth' e' He') as [_ Hh2'].
        destruct (holds_slot s2 e' Hw2 Hh2') as (_ & Hp2' & _).
        apply (Hsep _ Hp1). by rewrite Heq.
Qed.

(** X18: [Iterate2] over two different component types with the visitor
    [*c1 = g(e, *c1, *c2)] returns; each entity that holds both types ends
    with [g] of its entity, its old first component and its second
    component as first component, and every other component of the
    registry (the second components, the first components of entities that
    lack the second type, the components of other types) reads as
    before. *)
Theorem Iterate2_updates_in_place {T} (r : Registry) (h : list T)
    (k1 k2 : gotype) (g : Goent → T → T → T) :
  reg_ok r h → k1 ≠ k2 →
  ∃ h',
    Iterate2 r k1 k2 (update_first g) h = Ok h'
    ∧ length h' = length h
    ∧ (∀ e a b, is_Goent e →
         ReadComponent r h k1 e = Ok (Some a) →
         ReadComponent r h k2 e = Ok (Some b) →
         ReadComponent r h' k1 e = Ok (Some (g e a b)))
    ∧ (∀ k e, is_Goent e → k ≠ k1 ∨ ¬ reg_holds r k2 e →
         ReadComponent r h' k e = ReadComponent r h k e).
Proof.
  intros [HI Hdis] Hne. pose proof (reg_Inv_wf r h HI) as Hr.
  destruct (r !! k1) as [s1 |] eqn:Hk1; cycle 1.
  { exists h. split_and!; try done.
    - unfold Iterate2, getStorage. by rewrite Hk1.
    - intros e a b _ Ha. by rewrite (ReadComponent_missing r h k1 e Hk1) in Ha. }
  destruct (r !! k2) as [s2 |] eqn:Hk2; cycle 1.
  { exists h. split_and!; try done.
    - unfold Iterate2, getStorage. by rewrite Hk1, Hk2.
    - intros e a b _ _ Hb.
      by rewrite (ReadComponent_missing r h k2 e Hk2) in Hb. }
  destruct (HI k1 s1 Hk1) as [Hw1 Ha1]. destruct (HI k2 s2 Hk2) as [Hw2 Ha2].
  destruct (Iterate2_calls r k1 k2 s1 s2 Hr Hk1 Hk2) as [Hbase Hit].
  set (base := smaller s2 s1) in *.
  assert (wf base) as Hwb by (by apply wf_smaller).
  set (vs := filter (λ e, is_Some (get_all [s1; s2] e)) (dense base)).
  assert (NoDup vs) as Hnd by (apply NoDup_filter; by apply wf_NoDup_dense).
  assert (∀ e, e ∈ vs ↔ holds s1 e ∧ holds s2 e) as Hvs.
  { intros e. unfold vs. rewrite list_elem_of_filter. split.
    - intros [Hsome Hin].
      by apply (get_all2_is_Some base s1 s2 e Hwb Hw1 Hw2 Hin).
    - intros [Hh1 Hh2].
      assert (e ∈ dense base) as Hin.
      { unfold base. by destruct (smaller_cases s2 s1) as [-> | ->]. }
      split; [| done].
      by apply (get_all2_is_Some base s1 s2 e Hwb Hw1 Hw2 Hin). }
  assert (∀ p, p ∈ components s1 → p ∉ components s2) as Hsep.
  { intros p Hp1 Hp2. apply Hne. by apply (Hdis k1 k2 s1 s2 p). }
  destruct (update_fold g s1 s2 vs Hw1 Hw2 Hsep Hnd
              (λ e He, proj1 (Hvs e) He) h Ha1 Ha2) as (Hlen & Hother & Hupd).
  eexists. split_and!.
  - rewrite Hit.
    rewrite (run_calls_filter [s1; s2] (visit2 (update_first g))
               (λ e, [slot s1 e; slot s2 e]));
      [| intros e ps' _; apply get_all2_slots].
    cbn [visit2]. reflexivity.
  - exact Hlen.
  - intros e a b He Hra Hrb.
    rewrite (ReadComponent_lookup r h k1 s1 e Hk1) in Hra.
    rewrite (ReadComponent_lookup r h k2 s2 e Hk2) in Hrb.
    rewrite (ReadComponent_lookup r _ k1 s1 e Hk1).
    apply read_Some_inv in Hra as (p1 & HG1 & Hv1).
    apply read_Some_inv in Hrb as (p2 & HG2 & Hv2).
    destruct (Get_Some_inv s1 Hw1 e p1 He HG1) as (i1 & Hd1 & _).
    destruct (Get_Some_inv s2 Hw2 e p2 He HG2) as (i2 & Hd2 & _).
    assert (e ∈ vs) as Hin.
    { apply Hvs. split; by eapply list_elem_of_lookup_2. }
    destruct (Hupd e Hin) as (a' & b' & Ha' & Hb' & Hfin).
    rewrite (slot_Get s1 e p1 HG1) in Ha', Hfin.
    rewrite (slot_Get s2 e p2 HG2) in Hb'.
    rewrite Hv1 in Ha'. injection Ha' as <-.
    rewrite Hv2 in Hb'. injection Hb' as <-.
    by apply (read_holds s1 _ e p1).
  - intros k e He Hcase.
    destruct (r !! k) as [s |] eqn:Hk; cycle 1.
    { by rewrite !(ReadComponent_missing r _ k e Hk). }
    rewrite !(ReadComponent_lookup r _ k s e Hk). unfold read.
    destruct (Get s e) as [[q |] |] eqn:HG; try done. simpl.
    destruct (HI k s Hk) as [Hws _].
    destruct (Get_Some_inv s Hws e q He HG) as (i & Hd & Hq).
    rewrite Hother; [done |].
    intros (e' & Heq & He')%list_elem_of_fmap.
    destruct (proj1 (Hvs e') He') as [Hh1' Hh2'].
    destruct (holds_slot s1 e' Hw1 Hh1') as (HG1' & Hp1' & He'G).
    destruct (decide (k = k1)) as [-> | Hkk].
    + rewrite Hk1 in Hk. injection Hk as <-.
      destruct Hcase as [? | Hno]; [done |].
      destruct (decide (e' = e)) as [-> | Hee].
      * apply Hno. by exists s2.
      * apply (slots_distinct s1 e' e _ _ Hw1 He'G He HG1' HG Hee). by symmetry.
    + apply Hkk. apply (Hdis k k1 s s1 q Hk Hk1).
      * by eapply list_elem_of_lookup_2.
      * by rewrite Heq.
Qed.

Lemma Iterate2_updates_in_place_witness :
  ∃ h',
    Iterate2 sample_registry (TNamed 0) (TNamed 1)
      (update_first (λ _ a b, a + b)) sample_heap_AB = Ok h'
    ∧ length h' = length sample_heap_AB
    ∧ ReadComponent sample_registry h' (TNamed 0) 7 = Ok (Some (70 + 700))
    ∧ ReadComponent sample_registry h' (TNamed 0) 3
      = ReadComponent sample_registry sample_heap_AB (TNamed 0) 3.
Proof.
  destruct (Iterate2_updates_in_place sample_registry sample_heap_AB
              (TNamed 0) (TNamed 1) (λ _ a b, a + b))
    as (h' & Hit & Hlen & Hupd & Hfr).
  - apply reg_ok_check_sound. vm_compute. reflexivity.
  - discriminate.
  - exists h'. split_and!; [exact Hit | exact Hlen | |].
    + apply (Hupd 7 70 700);
        [unfold is_Goent, uint64_mod; lia | reflexivity | reflexivity].
    + apply (Hfr (TNamed 0) 3); [unfold is_Goent, uint64_mod; lia |].
      right. intros (ss & Hss & Hin).
      assert (sample_registry !! TNamed 1 = Some sample_set_B) as Hl
        by reflexivity.
      rewrite Hl in Hss. injection Hss as <-.
      revert Hin. apply (bool_decide_unpack _). vm_compute. exact I.
Defined.

(** ** A run of first emplacements *)


